(** * good_moode: the OLED state machine of a moOde player appliance

    A shallow embedding of [scripts/moode_state_machine.py] (and of the
    earlier single-screen variant [moode_display.py]) together with the
    properties of its metadata reader, button watcher, player-state
    poller, Playing screen and state machine.

    Conventions.
    - A Python [str] is a list of Unicode code points ([N]).
    - Monotonic and wall-clock times (Python floats, in seconds) are
      rationals ([Q]); the literals of the source ([0.05], [0.2], [3.0],
      [60]) are the corresponding fractions.
    - Calls to the outside world (the [mpc] command, the HTTP stream, the
      GPIO line, the clock) are inputs of the functions that make them.
    - Code that can raise returns a [result]; [try .. except Exception]
      is [catch_Exception]. *)

From Stdlib Require Import String Ascii List ZArith NArith QArith Bool Lia Lqa.
Import ListNotations.

Close Scope Q_scope.
Local Open Scope list_scope.

(* ================================================================== *)
(** * Python values *)
(* ================================================================== *)

Module Py.

(** ** Strings *)

Definition char := N.
Definition str := list char.

Definition ord (a : ascii) : char := N_of_ascii a.

(** An ASCII literal of the source as a [str]. *)
Definition lit (s : string) : str := map ord (list_ascii_of_string s).
Arguments lit s%_string.
Arguments ord a%_char.

Fixpoint eqb (s t : str) : bool :=
  match s, t with
  | [], [] => true
  | a :: s', b :: t' => N.eqb a b && eqb s' t'
  | _, _ => false
  end.

(** Truth value of a string: [if s:] holds for the non-empty ones. *)
Definition truthy (s : str) : bool :=
  match s with
  | [] => false
  | _ :: _ => true
  end.

(** [str.isspace] on one code point (CPython's [_PyUnicode_IsWhitespace]). *)
Definition isspace (c : char) : bool :=
  (((9 <=? c) && (c <=? 13)) || ((28 <=? c) && (c <=? 32))
   || (c =? 133) || (c =? 160) || (c =? 5760)
   || ((8192 <=? c) && (c <=? 8202))
   || (c =? 8232) || (c =? 8233) || (c =? 8239) || (c =? 8287)
   || (c =? 12288))%N.

Fixpoint lstrip (s : str) : str :=
  match s with
  | [] => []
  | c :: r => if isspace c then lstrip r else s
  end.

Definition rstrip (s : str) : str := rev (lstrip (rev s)).

(** [s.strip()] *)
Definition strip (s : str) : str := rstrip (lstrip s).

(** [s.startswith(p)] *)
Fixpoint startswith (p s : str) : bool :=
  match p, s with
  | [], _ => true
  | _ :: _, [] => false
  | a :: p', b :: s' => N.eqb a b && startswith p' s'
  end.

(** [s.find(sub)], with [None] for [-1]. *)
Fixpoint find (sub s : str) : option nat :=
  if startswith sub s then Some 0%nat
  else match s with
       | [] => None
       | _ :: r => option_map S (find sub r)
       end.

(** [sub in s] *)
Definition contains (sub s : str) : bool :=
  match find sub s with
  | Some _ => true
  | None => false
  end.

(** [s.split(sep, 1)] for a non-empty separator. *)
Definition split1 (sep s : str) : list str :=
  match find sep s with
  | Some i => [firstn i s; skipn (i + length sep) s]
  | None => [s]
  end.

(** [x or ""] for the optional string an extraction returns. *)
Definition or_empty (o : option str) : str :=
  match o with
  | Some t => if truthy t then t else []
  | None => []
  end.

(** ** Exceptions *)

Inductive exn :=
| ValueError
| OSError
| FileNotFoundError
| UnicodeDecodeError
| TimeoutExpired               (* subprocess.TimeoutExpired *)
| CalledProcessError (rc : Z)  (* subprocess.CalledProcessError *)
| RequestException             (* requests.RequestException and its subclasses *)
| RequestReleasedError         (* gpiod.RequestReleasedError *)
| TimeoutError                 (* asyncio.TimeoutError *)
| CancelledError               (* asyncio.CancelledError *)
| KeyboardInterrupt.

(** [isinstance(e, Exception)]: cancellation and the keyboard interrupt
    derive from [BaseException] only. *)
Definition is_Exception (e : exn) : bool :=
  match e with
  | CancelledError | KeyboardInterrupt => false
  | _ => true
  end.

Inductive result (A : Type) :=
| Ok (a : A)
| Raise (e : exn).
Arguments Ok {A} a.
Arguments Raise {A} e.

Definition bind {A B} (r : result A) (k : A -> result B) : result B :=
  match r with
  | Ok a => k a
  | Raise e => Raise e
  end.

(** [try: body  except Exception: handler] *)
Definition catch_Exception {A} (body : result A) (handler : exn -> result A)
  : result A :=
  match body with
  | Ok a => Ok a
  | Raise e => if is_Exception e then handler e else Raise e
  end.

(** [a, b = seq]: unpacking a sequence into two names. *)
Definition unpack2 {A} (l : list A) : result (A * A) :=
  match l with
  | [a; b] => Ok (a, b)
  | _ => Raise ValueError
  end.

End Py.

Import Py.

Declare Scope py_scope.
Delimit Scope py_scope with py.
Notation "x <- c ;; k" := (bind c (fun x => k))
  (at level 61, c at next level, right associativity) : py_scope.
Notation "' p <- c ;; k" := (bind c (fun p => k))
  (at level 61, p pattern, c at next level, right associativity) : py_scope.

(* ================================================================== *)
(** * Module-level constants and helpers *)
(* ================================================================== *)

Inductive PlayerState := STATE_IDLE | STATE_PLAYING.

Definition PlayerState_eqb (a b : PlayerState) : bool :=
  match a, b with
  | STATE_IDLE, STATE_IDLE | STATE_PLAYING, STATE_PLAYING => true
  | _, _ => false
  end.

Definition POLL_INTERVAL : Q := 2 # 10.

(** ** [extract_title]

    [re.search(r"StreamTitle='([^';]+)", metadata)]: the leftmost position
    at which the literal is followed by at least one character other than
    a quote and a semicolon; the group is the longest such run. *)

Definition title_char (c : char) : bool :=
  negb (N.eqb c (ord "'")) && negb (N.eqb c (ord ";")).

Fixpoint take_while (p : char -> bool) (s : str) : str :=
  match s with
  | [] => []
  | c :: r => if p c then c :: take_while p r else []
  end.

Definition StreamTitle_tag : str := lit "StreamTitle='".

(** The pattern anchored at the head of [s]; the result is group 1. *)
Definition match_StreamTitle_here (s : str) : option str :=
  if startswith StreamTitle_tag s then
    match take_while title_char (skipn (length StreamTitle_tag) s) with
    | [] => None
    | g => Some g
    end
  else None.

Fixpoint search_StreamTitle (s : str) : option str :=
  match match_StreamTitle_here s with
  | Some g => Some g
  | None => match s with
            | [] => None
            | _ :: r => search_StreamTitle r
            end
  end.

Definition extract_title (metadata : str) : option str :=
  match search_StreamTitle metadata with
  | None => None
  | Some g => Some (strip g)
  end.

(** ** Comparisons of times *)

Definition Qgeb (a b : Q) : bool := Qle_bool b a.
Definition Qgtb (a b : Q) : bool := negb (Qle_bool a b).

(** ** [get_volume_percent]

    Each of the two volume sources either yields an integer (the digits
    matched in the output of [mpc], the ["volume"] entry of the JSON
    answer, 50 when the entry is missing) or yields nothing: the command or
    request failed, the pattern did not match, the answer was not [ok]. *)

Inductive volume_reading :=
| Reading (n : Z)
| NoReading.

Record volume_sources := {
  mpc_volume : volume_reading;
  api_volume : volume_reading
}.

(** [max(0, min(100, n))] *)
Definition clamp_percent (n : Z) : Z := Z.max 0 (Z.min 100 n).

Definition get_volume_percent (v : volume_sources) : Z :=
  match mpc_volume v with
  | Reading n => clamp_percent n
  | NoReading =>
      match api_volume v with
      | Reading n => clamp_percent n
      | NoReading => 50
      end
  end%Z.

(** ** [subprocess.check_output(cmd, text=True, timeout=t)] *)

Inductive process_outcome :=
| Exited (rc : Z) (stdout : option str)  (* [None]: the output is not valid text *)
| TimedOut
| NotFound.

Definition check_output (p : process_outcome) : result str :=
  match p with
  | Exited rc (Some out) =>
      if (rc =? 0)%Z then Ok out else Raise (CalledProcessError rc)
  | Exited _ None => Raise UnicodeDecodeError
  | TimedOut => Raise TimeoutExpired
  | NotFound => Raise FileNotFoundError
  end.

(** ** [get_state]

    The body of the [try] either returns from the function ([Some]) or
    falls through to the final [return STATE_IDLE] ([None]). *)

Definition playing_marker : str := lit "[playing]".

Definition get_state (mpc_status : process_outcome) : result PlayerState :=
  (early <- catch_Exception
              (out <- check_output mpc_status ;;
               Ok (if contains playing_marker out
                   then Some STATE_PLAYING else None))
              (fun _ => Ok None) ;;
   match early with
   | Some s => Ok s
   | None => Ok STATE_IDLE
   end)%py.

(** ** [toggle_play_pause]

    [subprocess.run(["mpc", "toggle"], capture_output=True, text=True,
    timeout=2)] returns the exit code where [check_output] raises on a
    non-zero one.  The function prints one line for each way it fails. *)

Definition subprocess_run (p : process_outcome) : result Z :=
  match p with
  | Exited rc (Some _) => Ok rc
  | Exited _ None => Raise UnicodeDecodeError
  | TimedOut => Raise TimeoutExpired
  | NotFound => Raise FileNotFoundError
  end.

Inductive toggle_message :=
| toggle_failed          (* ["[ERROR] MPC toggle failed!"] *)
| toggle_timeout         (* ["[ERROR] MPC timeout!"] *)
| toggle_not_found       (* ["[ERROR] mpc command not found!"] *)
| toggle_exception (e : exn).  (* ["[ERROR] MPC exception: ..."] *)

(** The lines printed, or the exception that leaves the function. *)
Definition toggle_play_pause (mpc_toggle : process_outcome)
  : result (list toggle_message) :=
  match subprocess_run mpc_toggle with
  | Ok returncode =>
      Ok (if negb (returncode =? 0)%Z then [toggle_failed] else [])
  | Raise TimeoutExpired => Ok [toggle_timeout]
  | Raise FileNotFoundError => Ok [toggle_not_found]
  | Raise e => if is_Exception e then Ok [toggle_exception e] else Raise e
  end.

(* ================================================================== *)
(** * The metadata handler: [NowPlayingExtractHandler] *)
(* ================================================================== *)

Module NowPlayingExtractHandler.

Record t := {
  interval : Q;
  has_coro : bool;          (* [self.coro] is set *)
  has_update_coro : bool;   (* [self.update_coro] is set *)
  _last_metadata : str;
  last_title : str;
  _stop_event : bool
}.

Definition __init__ (interval : Q) (coro update_coro : bool) : t :=
  {| interval := interval;
     has_coro := coro;
     has_update_coro := update_coro;
     _last_metadata := [];
     last_title := [];
     _stop_event := false |}.

Definition store (meta title : str) (h : t) : t :=
  {| interval := interval h;
     has_coro := has_coro h;
     has_update_coro := has_update_coro h;
     _last_metadata := meta;
     last_title := title;
     _stop_event := _stop_event h |}.

(** What one request of the stream comes to in [_read_metadata]. *)
Inductive stream_read :=
| ReadRaised (e : exn)   (* the request, the header parse or a read raised *)
| NoMetaint              (* [icy-metaint] absent or zero *)
| NoLengthByte           (* the stream ended before the length byte *)
| EmptyBlock             (* the length byte is zero *)
| Block (meta : str).    (* the decoded metadata block *)

Definition REQUEST_TIMEOUT : Q := 2.
Definition READ_TIMEOUT : Q := 3.

Definition _read_metadata (r : stream_read) : result str :=
  catch_Exception
    (match r with
     | ReadRaised e => Raise e
     | NoMetaint => Ok []
     | NoLengthByte => Ok []
     | EmptyBlock => Ok []
     | Block meta => Ok meta
     end)
    (fun _ => Ok []).

(** [asyncio.wait_for(loop.run_in_executor(None, f), timeout=3.0)]: the
    blocking call runs in a worker thread and takes [took] seconds; the
    wait gives its result, or gives up after [READ_TIMEOUT].  The result
    comes with the time spent waiting. *)
Definition wait_for_executor (took : Q) (r : result str) : result str * Q :=
  if Qgtb READ_TIMEOUT took then (r, took)
  else (Raise TimeoutError, READ_TIMEOUT).

(** [_read_metadata_async]: both handlers return the empty string. *)
Definition _read_metadata_async (took : Q) (r : stream_read)
  : result str * Q :=
  let (res, waited) := wait_for_executor took (_read_metadata r) in
  (match res with
   | Raise TimeoutError => Ok []
   | _ => catch_Exception res (fun _ => Ok [])
   end, waited).

(** The callbacks the loop awaits, in order. *)
Inductive call :=
| Title (title : option str)   (* [await self.coro(title)] *)
| Update.                      (* [await self.update_coro()] *)

(** The [if meta:] block of [_loop]. *)
Definition on_metadata (meta : str) (h : t) : t * list call :=
  if truthy meta then
    if negb (eqb meta (_last_metadata h)) then
      let h' := store meta (or_empty (extract_title meta)) h in
      (h', if has_coro h' then [Title (Some (last_title h'))] else [])
    else
      (h, if has_coro h then [Title None] else [])
  else (h, []).

(** One iteration of the [while] loop, up to the final sleep. *)
Definition poll_cycle (meta : str) (h : t) : t * list call :=
  let (h', calls) := on_metadata meta h in
  (h', calls ++ (if has_update_coro h' then [Update] else [])).

(** The pacing at the end of an iteration that started at [now] with
    deadline [next_t], after [spent] seconds of reading and callbacks:
    the time at which the next iteration starts, and its deadline. *)
Definition pace (h : t) (now next_t spent : Q) : Q * Q :=
  let t1 := (now + spent)%Q in
  let delay := (next_t - t1)%Q in
  ((if Qgtb delay 0 then (t1 + delay)%Q else t1), (next_t + interval h)%Q).

(** One iteration as the environment sees it: how long the blocking
    read took, what it came to, and the time the awaited callbacks took. *)
Record cycle := {
  took : Q;
  fetched : stream_read;
  busy : Q
}.

(** [_loop], from the iteration that starts at [now] with deadline
    [next_t]; the list holds one entry per cycle the task lives through
    before it is cancelled.  The log gives, for each iteration, its start
    time and the callbacks it awaited.  A [CancelledError] ends the loop
    quietly; every other exception leaves it. *)
Fixpoint _loop_from (cs : list cycle) (now next_t : Q) (h : t)
  : result (t * list (Q * list call)) :=
  match cs with
  | [] => Ok (h, [])
  | c :: rest =>
      if _stop_event h then Ok (h, [])
      else
        match _read_metadata_async (took c) (fetched c) with
        | (Raise CancelledError, _) => Ok (h, [])
        | (Raise e, _) => Raise e
        | (Ok meta, waited) =>
            let (h', calls) := poll_cycle meta h in
            let (now', next') := pace h' now next_t (waited + busy c)%Q in
            ('(h'', log) <- _loop_from rest now' next' h' ;;
             Ok (h'', (now, calls) :: log))%py
        end
  end.

Definition _loop (cs : list cycle) (now : Q) (h : t)
  : result (t * list (Q * list call)) :=
  _loop_from cs now (now + interval h)%Q h.

End NowPlayingExtractHandler.

(* ================================================================== *)
(** * The button watcher: [GPIOButton] *)
(* ================================================================== *)

Module GPIOButton.

(** A level as Python holds it: [request.get_value] returns a member of
    the enumeration [gpiod.line.Value]; the loop stores its integer
    [.value].  A member of a plain [Enum] is equal to no integer. *)
Inductive level :=
| Enum (v : Z)
| Int (v : Z).

(** [state != last] and [last == n], for an integer [state] and [n]. *)
Definition int_ne (state : Z) (last : level) : bool :=
  match last with
  | Int v => negb (state =? v)%Z
  | Enum _ => true
  end.

Definition eq_int (last : level) (n : Z) : bool :=
  match last with
  | Int v => (v =? n)%Z
  | Enum _ => false
  end.

Record t := {
  line : Z;
  on_press : bool;        (* [self.on_press] is set *)
  debounce : Q;
  _last_press : Q;
  _stop : bool;
  released : bool;        (* the line request has been released *)
  _last_state : level;
  presses : list Q        (* the times at which [on_press] was called, latest first *)
}.

(** [__init__], [initial] being the level read at construction. *)
Definition __init__ (line : Z) (on_press : bool) (debounce : Q) (initial : Z) : t :=
  {| line := line;
     on_press := on_press;
     debounce := debounce;
     _last_press := 0;
     _stop := false;
     released := false;
     _last_state := Enum initial;
     presses := [] |}.

(** The default of the [debounce] parameter. *)
Definition default_debounce : Q := 1 # 10.

Definition accept (now : Q) (b : t) : t :=
  {| line := line b;
     on_press := on_press b;
     debounce := debounce b;
     _last_press := now;
     _stop := _stop b;
     released := released b;
     _last_state := _last_state b;
     presses := if on_press b then now :: presses b else presses b |}.

Definition set_last_state (l : level) (b : t) : t :=
  {| line := line b;
     on_press := on_press b;
     debounce := debounce b;
     _last_press := _last_press b;
     _stop := _stop b;
     released := released b;
     _last_state := l;
     presses := presses b |}.

(** [self.request.get_value(self.line)]: [sampled] is what the line
    gives ([None]: the read fails); a released request refuses. *)
Definition get_value (sampled : option Z) (b : t) : result Z :=
  if released b then Raise RequestReleasedError
  else match sampled with
       | Some v => Ok v
       | None => Raise OSError
       end.

(** The [try] block of one iteration of [_loop], at monotonic time [now]. *)
Definition sample (now : Q) (sampled : option Z) (b : t) : t :=
  match catch_Exception
          (state <- get_value sampled b ;;
           let b1 :=
             if int_ne state (_last_state b) then
               if (state =? 0)%Z && eq_int (_last_state b) 1 then
                 if Qgeb (now - _last_press b) (5 # 100) then accept now b
                 else b
               else b
             else b in
           Ok (set_last_state (Int state) b1))%py
          (fun _ => Ok b)
  with
  | Ok b' => b'
  | Raise _ => b
  end.

(** [_loop] over the samples the line gives, each with the time at which
    it is taken. *)
Fixpoint _loop (samples : list (Q * option Z)) (b : t) : t :=
  match samples with
  | [] => b
  | (now, v) :: rest => if _stop b then b else _loop rest (sample now v b)
  end.

(** [LineRequest.release] *)
Definition release (b : t) : result t :=
  if released b then Raise RequestReleasedError
  else Ok {| line := line b;
             on_press := on_press b;
             debounce := debounce b;
             _last_press := _last_press b;
             _stop := _stop b;
             released := true;
             _last_state := _last_state b;
             presses := presses b |}.

Definition set_stop (b : t) : t :=
  {| line := line b;
     on_press := on_press b;
     debounce := debounce b;
     _last_press := _last_press b;
     _stop := true;
     released := released b;
     _last_state := _last_state b;
     presses := presses b |}.

Definition stop (b : t) : result t :=
  let b1 := set_stop b in
  catch_Exception (release b1) (fun _ => Ok b1).

End GPIOButton.

(* ================================================================== *)
(** * The rendering surface *)
(* ================================================================== *)

Inductive font := font_big | font_small.

(** The primitives drawn inside one [with canvas(display) as draw:]. *)
Inductive draw_cmd :=
| text (x y : Z) (s : str) (f : font)
| rectangle (x0 y0 x1 y1 : Z).

(** What the display receives, latest first. *)
Inductive display_op :=
| contrast (val : Z)
| frame (cmds : list draw_cmd).

(** The clock as a redraw reads it: [time.time()] and the formatted
    date and time. *)
Record clock := {
  time_time : Q;
  strftime : str
}.

(* ================================================================== *)
(** * The Idle screen: [IdleScreen] *)
(* ================================================================== *)

Module IdleScreen.

Record t := {
  display : list display_op;
  contrast_level : Z;       (* [self.contrast] *)
  blink : bool;
  last_blink : Q;
  shift_x : Z;
  shift_y : Z;
  last_shift : Q
}.

(** The clock as a redraw reads it: [time.time()], the hour and minute of
    [time.localtime()] and [time.strftime("%Y-%m-%d")]. *)
Record wall_clock := {
  time_time : Q;
  tm_hour : N;
  tm_min : N;
  datestr : str
}.

Fixpoint str_of_uint (d : Decimal.uint) : str :=
  match d with
  | Decimal.Nil => []
  | Decimal.D0 r => ord "0" :: str_of_uint r
  | Decimal.D1 r => ord "1" :: str_of_uint r
  | Decimal.D2 r => ord "2" :: str_of_uint r
  | Decimal.D3 r => ord "3" :: str_of_uint r
  | Decimal.D4 r => ord "4" :: str_of_uint r
  | Decimal.D5 r => ord "5" :: str_of_uint r
  | Decimal.D6 r => ord "6" :: str_of_uint r
  | Decimal.D7 r => ord "7" :: str_of_uint r
  | Decimal.D8 r => ord "8" :: str_of_uint r
  | Decimal.D9 r => ord "9" :: str_of_uint r
  end.

(** [f"{n:02d}"] for a number that is not negative: its decimal digits,
    with a zero in front of a single one. *)
Definition format_02d (n : N) : str :=
  let digits := str_of_uint (N.to_uint n) in
  if (length digits <? 2)%nat then ord "0" :: digits else digits.

Definition set_blink (b : bool) (now : Q) (s : t) : t :=
  {| display := display s; contrast_level := contrast_level s;
     blink := b; last_blink := now;
     shift_x := shift_x s; shift_y := shift_y s;
     last_shift := last_shift s |}.

Definition set_shift (x y : Z) (now : Q) (s : t) : t :=
  {| display := display s; contrast_level := contrast_level s;
     blink := blink s; last_blink := last_blink s;
     shift_x := x; shift_y := y; last_shift := now |}.

Definition send (ops : list display_op) (s : t) : t :=
  {| display := ops ++ display s; contrast_level := contrast_level s;
     blink := blink s; last_blink := last_blink s;
     shift_x := shift_x s; shift_y := shift_y s;
     last_shift := last_shift s |}.

Section Draw.

(** [draw.textbbox((0, 0), s, font=f)[2]]: the font's metrics. *)
Variable textbbox_right : font -> str -> Z.

Definition timestr (c : wall_clock) (s : t) : str :=
  format_02d (tm_hour c)
  ++ (if blink s then lit ":" else lit " ")
  ++ format_02d (tm_min c).

Definition _draw (c : wall_clock) (s : t) : t :=
  let now := time_time c in
  let s := send [contrast (contrast_level s)] s in
  let s := if Qgeb (now - last_blink s) 1
           then set_blink (negb (blink s)) now s else s in
  let s := if Qgeb (now - last_shift s) 60
           then set_shift ((shift_x s + 1) mod 4)%Z ((shift_y s + 1) mod 4)%Z now s
           else s in
  let w := textbbox_right font_big (timestr c s) in
  let x := ((128 - w) / 2)%Z in
  let y := 12%Z in
  let dw := textbbox_right font_small (datestr c) in
  send [frame [text x y (timestr c s) font_big;
               text ((128 - dw) / 2)%Z (y + 38)%Z (datestr c) font_small]] s.

Definition __init__ (contrast : Z) (c : wall_clock) : t :=
  _draw c {| display := []; contrast_level := contrast;
             blink := true; last_blink := 0;
             shift_x := 0; shift_y := 0; last_shift := 0 |}.

(** The default of [__init__]. *)
Definition default_contrast : Z := 50.

(** [update] *)
Definition update (c : wall_clock) (s : t) : t := _draw c s.

(** The screen after the redraws of a list of ticks. *)
Definition updates (cs : list wall_clock) (s : t) : t :=
  fold_left (fun s c => update c s) cs s.

End Draw.

End IdleScreen.

(* ================================================================== *)
(** * The Playing screen: [PlayingScreen] *)
(* ================================================================== *)

Module PlayingScreen.

Module Base := NowPlayingExtractHandler.

Record t := {
  base : Base.t;                  (* the fields of the parent class *)
  display : list display_op;
  contrast_level : Z;             (* [self.contrast] *)
  _render_enabled : bool;
  _current_title : str;
  _current_volume : Z;
  _scroll_offset_artist : Z;
  _scroll_offset_song : Z;
  _scroll_speed : Z;
  _scroll_gap : Z;
  shift_x : Z;
  shift_y : Z;
  last_shift : Q
}.

Definition set_base (h : Base.t) (s : t) : t :=
  {| base := h;
     display := display s;
     contrast_level := contrast_level s;
     _render_enabled := _render_enabled s;
     _current_title := _current_title s;
     _current_volume := _current_volume s;
     _scroll_offset_artist := _scroll_offset_artist s;
     _scroll_offset_song := _scroll_offset_song s;
     _scroll_speed := _scroll_speed s;
     _scroll_gap := _scroll_gap s;
     shift_x := shift_x s;
     shift_y := shift_y s;
     last_shift := last_shift s |}.

Definition set_render_enabled (val : bool) (s : t) : t :=
  {| base := base s;
     display := display s;
     contrast_level := contrast_level s;
     _render_enabled := val;
     _current_title := _current_title s;
     _current_volume := _current_volume s;
     _scroll_offset_artist := _scroll_offset_artist s;
     _scroll_offset_song := _scroll_offset_song s;
     _scroll_speed := _scroll_speed s;
     _scroll_gap := _scroll_gap s;
     shift_x := shift_x s;
     shift_y := shift_y s;
     last_shift := last_shift s |}.

Definition set_shift (x y : Z) (now : Q) (s : t) : t :=
  {| base := base s;
     display := display s;
     contrast_level := contrast_level s;
     _render_enabled := _render_enabled s;
     _current_title := _current_title s;
     _current_volume := _current_volume s;
     _scroll_offset_artist := _scroll_offset_artist s;
     _scroll_offset_song := _scroll_offset_song s;
     _scroll_speed := _scroll_speed s;
     _scroll_gap := _scroll_gap s;
     shift_x := x;
     shift_y := y;
     last_shift := now |}.

Definition send (ops : list display_op) (s : t) : t :=
  {| base := base s;
     display := ops ++ display s;
     contrast_level := contrast_level s;
     _render_enabled := _render_enabled s;
     _current_title := _current_title s;
     _current_volume := _current_volume s;
     _scroll_offset_artist := _scroll_offset_artist s;
     _scroll_offset_song := _scroll_offset_song s;
     _scroll_speed := _scroll_speed s;
     _scroll_gap := _scroll_gap s;
     shift_x := shift_x s;
     shift_y := shift_y s;
     last_shift := last_shift s |}.

(** The three assignments of [_oled_title_coro]. *)
Definition set_title (title : str) (s : t) : t :=
  {| base := base s;
     display := display s;
     contrast_level := contrast_level s;
     _render_enabled := _render_enabled s;
     _current_title := title;
     _current_volume := _current_volume s;
     _scroll_offset_artist := 0;
     _scroll_offset_song := 0;
     _scroll_speed := _scroll_speed s;
     _scroll_gap := _scroll_gap s;
     shift_x := shift_x s;
     shift_y := shift_y s;
     last_shift := last_shift s |}.

(** The three assignments of [_oled_update_coro]. *)
Definition advance (vol : Z) (s : t) : t :=
  {| base := base s;
     display := display s;
     contrast_level := contrast_level s;
     _render_enabled := _render_enabled s;
     _current_title := _current_title s;
     _current_volume := vol;
     _scroll_offset_artist := _scroll_offset_artist s + _scroll_speed s;
     _scroll_offset_song := _scroll_offset_song s + _scroll_speed s;
     _scroll_speed := _scroll_speed s;
     _scroll_gap := _scroll_gap s;
     shift_x := shift_x s;
     shift_y := shift_y s;
     last_shift := last_shift s |}%Z.

(** [split_artist_title]: the two generator branches yield the stripped
    parts of the split, the last one returns a pair. *)
Definition split_artist_title (title : str) : list str :=
  if contains (lit "_-_") title then
    map strip (split1 (lit "_-_") title)
  else if contains (lit " - ") title then
    map strip (split1 (lit " - ") title)
  else [strip title; []].

(** The width of the volume bar at full volume. *)
Definition bar_max_width : Z := 90.

(** [int(90 * vol / 100)]: the true division gives a float and [int]
    truncates it.  [vol] is an integer between 0 and 100, so the exact
    quotient is a multiple of 1/10 and the float nearest to it has the
    same integer part. *)
Definition bar_w (vol : Z) : Z := Z.quot (90 * vol) 100.

Section Draw.

(** [bbox[2] - bbox[0]] of [font_big.getbbox(text)]: the font's
    metrics. *)
Variable text_width : str -> Z.

Definition _scroll_text (s : t) (txt : str) (y offset : Z) : list draw_cmd :=
  let text_w := text_width txt in
  let y_shifted := (y + shift_y s)%Z in
  if (text_w <=? 128)%Z then
    [text (shift_x s) y_shifted txt font_big]
  else
    let total := (text_w + _scroll_gap s)%Z in
    let x := (- (offset mod total) + shift_x s)%Z in
    [text x y_shifted txt font_big;
     text (x + total) y_shifted txt font_big].

Definition _draw (c : clock) (s : t) : result t :=
  if negb (_render_enabled s) then Ok s
  else
    let now := time_time c in
    let s :=
      if Qgeb (now - last_shift s) 60
      then set_shift ((shift_x s + 1) mod 4)%Z ((shift_y s + 1) mod 4)%Z now s
      else s in
    ('(artist, song) <- unpack2 (split_artist_title (_current_title s)) ;;
     let now_str := strftime c in
     let vol := _current_volume s in
     let cmds :=
       (if truthy artist
        then _scroll_text s artist 0 (_scroll_offset_artist s) else [])
       ++ (if truthy song
           then _scroll_text s song 18 (_scroll_offset_song s) else [])
       ++ [text (shift_x s) (36 + shift_y s) (lit "VOL") font_small;
           rectangle (30 + shift_x s) (40 + shift_y s)
                     (30 + bar_w vol + shift_x s) (43 + shift_y s);
           text (shift_x s) (50 + shift_y s) now_str font_small] in
     Ok (send [frame cmds; contrast (contrast_level s)] s))%py%Z.

Definition _oled_title_coro (title : option str) (c : clock) (s : t)
  : result t :=
  match title with
  | Some new_title =>
      if truthy new_title && negb (eqb new_title (_current_title s))
      then _draw c (set_title new_title s)
      else Ok s
  | None => Ok s
  end.

Definition _oled_update_coro (v : volume_sources) (c : clock) (s : t)
  : result t :=
  _draw c (advance (get_volume_percent v) s).

(** ["Radio Most Kaposvár"] *)
Definition initial_title : str :=
  lit "Radio Most Kaposv" ++ [225%N] ++ lit "r".

(** [__init__]; the metadata handler is set up with both callbacks. *)
Definition __init__ (interval : Q) (contrast : Z)
           (v : volume_sources) (c : clock) : result t :=
  _draw c
    {| base := Base.__init__ interval true true;
       display := [];
       contrast_level := contrast;
       _render_enabled := true;
       _current_title := initial_title;
       _current_volume := get_volume_percent v;
       _scroll_offset_artist := 0;
       _scroll_offset_song := 0;
       _scroll_speed := 2;
       _scroll_gap := 20;
       shift_x := 0;
       shift_y := 0;
       last_shift := 0 |}.

(** The defaults of [__init__]. *)
Definition default_interval : Q := 2 # 10.
Definition default_contrast : Z := 180.

(** What the callbacks of one iteration read from outside. *)
Record tick := {
  title_clock : clock;
  volume : volume_sources;
  update_clock : clock
}.

Definition run_call (e : tick) (c : Base.call) (s : t) : result t :=
  match c with
  | Base.Title title => _oled_title_coro title (title_clock e) s
  | Base.Update => _oled_update_coro (volume e) (update_clock e) s
  end.

Fixpoint run_calls (e : tick) (cs : list Base.call) (s : t) : result t :=
  match cs with
  | [] => Ok s
  | c :: rest => (s' <- run_call e c s ;; run_calls e rest s')%py
  end.

(** The [if meta:] block of the loop, on this screen. *)
Definition title_stage (e : tick) (meta : str) (s : t) : result t :=
  let (h, calls) := Base.on_metadata meta (base s) in
  run_calls e calls (set_base h s).

(** One iteration of the loop on this screen, given the block read. *)
Definition poll (e : tick) (meta : str) (s : t) : result t :=
  let (h, calls) := Base.poll_cycle meta (base s) in
  run_calls e calls (set_base h s).

(** [_loop] on this screen: each cycle reads the stream and awaits the
    callbacks; the list holds the cycles the task lives through before it
    is cancelled.  (The pacing of the cycles is [Base.pace].) *)
Fixpoint _loop (cs : list (Base.cycle * tick)) (s : t) : result t :=
  match cs with
  | [] => Ok s
  | (c, e) :: rest =>
      if Base._stop_event (base s) then Ok s
      else
        match Base._read_metadata_async (Base.took c) (Base.fetched c) with
        | (Raise CancelledError, _) => Ok s
        | (Raise err, _) => Raise err
        | (Ok meta, _) => (s' <- poll e meta s ;; _loop rest s')%py
        end
  end.

End Draw.

End PlayingScreen.

(* ================================================================== *)
(** * The single-screen variant: [moode_display.py] *)
(* ================================================================== *)

Module OLEDNowPlayingWithVolumeHandler.

(** Here the two parts are unpacked inside the function. *)
Definition split_artist_title (title : str) : result (str * str) :=
  if contains (lit "_-_") title then
    ('(a, b) <- unpack2 (map strip (split1 (lit "_-_") title)) ;; Ok (a, b))%py
  else if contains (lit " - ") title then
    ('(a, b) <- unpack2 (map strip (split1 (lit " - ") title)) ;; Ok (a, b))%py
  else Ok (strip title, []).

Definition bar_max_width : Z := 70.

(** [int(70 * vol / 100)] *)
Definition bar_w (vol : Z) : Z := Z.quot (70 * vol) 100.

(** The bar as [_draw] draws it. *)
Definition volume_bar (vol : Z) : draw_cmd :=
  rectangle 30 40 (30 + bar_w vol) 43.

(** [_scroll_text], [gap] being [self._scroll_gap]. *)
Definition _scroll_text (text_width : str -> Z) (gap : Z)
           (txt : str) (y offset : Z) : list draw_cmd :=
  let text_w := text_width txt in
  if (text_w <=? 128)%Z then [text 0 y txt font_big]
  else
    let total := (text_w + gap)%Z in
    let x := (- (offset mod total))%Z in
    [text x y txt font_big; text (x + total) y txt font_big].

End OLEDNowPlayingWithVolumeHandler.

(* ================================================================== *)
(** * The state machine: [MoodeStateMachine] *)
(* ================================================================== *)

Module MoodeStateMachine.

(** An [asyncio.Task] running [playing_screen._main()], by the order of
    its creation. *)
Definition task := nat.

Record t := {
  state : PlayerState;
  last_poll : Q;
  render_enabled : bool;      (* [self.playing_screen.render_enabled] *)
  play_task : option task;
  button : GPIOButton.t;
  idle_updates : nat;         (* calls of [idle_screen.update()] *)
  (* the event loop's side *)
  running : list task;        (* tasks created and not yet done *)
  cancelled : list task;      (* tasks asked to cancel, latest first *)
  created : nat;              (* tasks created so far *)
  peak : nat                  (* the most tasks there were at once *)
}.

(** Code that changes the machine and may raise: the changes made before
    an exception stay. *)
Definition M (A : Type) := t -> result A * t.

Definition ret {A} (a : A) : M A := fun m => (Ok a, m).
Definition raise {A} (e : exn) : M A := fun m => (Raise e, m).
Definition bindM {A B} (c : M A) (k : A -> M B) : M B :=
  fun m => match c m with
           | (Ok a, m') => k a m'
           | (Raise e, m') => (Raise e, m')
           end.
Definition get : M t := fun m => (Ok m, m).
Definition modify (f : t -> t) : M unit := fun m => (Ok tt, f m).
Definition lift {A} (r : result A) : M A := fun m => (r, m).

(** [try: body  except (E1, E2): pass] *)
Definition try_pass (body : M unit) (caught : exn -> bool) : M unit :=
  fun m => match body m with
           | (Raise e, m') => if caught e then (Ok tt, m') else (Raise e, m')
           | r => r
           end.

Declare Scope machine_scope.
Delimit Scope machine_scope with machine.
Notation "x <- c ;; k" := (bindM c (fun x => k))
  (at level 61, c at next level, right associativity) : machine_scope.
Notation "c ;; k" := (bindM c (fun _ => k))
  (at level 61, right associativity) : machine_scope.

Definition set_state (s : PlayerState) (m : t) : t :=
  {| state := s; last_poll := last_poll m;
     render_enabled := render_enabled m; play_task := play_task m;
     button := button m; idle_updates := idle_updates m;
     running := running m; cancelled := cancelled m;
     created := created m; peak := peak m |}.

Definition set_last_poll (now : Q) (m : t) : t :=
  {| state := state m; last_poll := now;
     render_enabled := render_enabled m; play_task := play_task m;
     button := button m; idle_updates := idle_updates m;
     running := running m; cancelled := cancelled m;
     created := created m; peak := peak m |}.

Definition set_render_enabled (val : bool) (m : t) : t :=
  {| state := state m; last_poll := last_poll m;
     render_enabled := val; play_task := play_task m;
     button := button m; idle_updates := idle_updates m;
     running := running m; cancelled := cancelled m;
     created := created m; peak := peak m |}.

Definition set_play_task (h : option task) (m : t) : t :=
  {| state := state m; last_poll := last_poll m;
     render_enabled := render_enabled m; play_task := h;
     button := button m; idle_updates := idle_updates m;
     running := running m; cancelled := cancelled m;
     created := created m; peak := peak m |}.

Definition set_button (b : GPIOButton.t) (m : t) : t :=
  {| state := state m; last_poll := last_poll m;
     render_enabled := render_enabled m; play_task := play_task m;
     button := b; idle_updates := idle_updates m;
     running := running m; cancelled := cancelled m;
     created := created m; peak := peak m |}.

Definition idle_update (m : t) : t :=
  {| state := state m; last_poll := last_poll m;
     render_enabled := render_enabled m; play_task := play_task m;
     button := button m; idle_updates := S (idle_updates m);
     running := running m; cancelled := cancelled m;
     created := created m; peak := peak m |}.

Definition set_running (l : list task) (m : t) : t :=
  {| state := state m; last_poll := last_poll m;
     render_enabled := render_enabled m; play_task := play_task m;
     button := button m; idle_updates := idle_updates m;
     running := l; cancelled := cancelled m;
     created := created m; peak := peak m |}.

(** [task.cancel()]: a request; the task is done only later. *)
Definition cancel (k : task) (m : t) : t :=
  {| state := state m; last_poll := last_poll m;
     render_enabled := render_enabled m; play_task := play_task m;
     button := button m; idle_updates := idle_updates m;
     running := running m; cancelled := k :: cancelled m;
     created := created m; peak := peak m |}.

(** The task [k] is done. *)
Definition done (k : task) (m : t) : t :=
  set_running (filter (fun j => negb (Nat.eqb j k)) (running m)) m.

(** [asyncio.create_task(self.playing_screen._main())], stored in
    [self.play_task]. *)
Definition create_task (m : t) : t :=
  let k := created m in
  {| state := state m; last_poll := last_poll m;
     render_enabled := render_enabled m; play_task := Some k;
     button := button m; idle_updates := idle_updates m;
     running := k :: running m; cancelled := cancelled m;
     created := S k;
     peak := Nat.max (peak m) (length (k :: running m)) |}.

(** [await asyncio.wait_for(k, timeout=0.5)].  [outcome] is how the wait
    ends: the task's result, or the exception raised ([CancelledError]
    when the task ended cancelled, [TimeoutError] on a timeout, the
    task's own exception otherwise).  [wait_for] comes back only once the
    task is done: on a timeout it cancels the task and awaits it. *)
Definition wait_for (k : task) (outcome : result unit) : M unit :=
  fun m => (outcome, done k m).

Definition _apply_state (new_state : PlayerState) : M unit :=
  (modify (set_render_enabled (PlayerState_eqb new_state STATE_PLAYING)) ;;
   (if PlayerState_eqb new_state STATE_IDLE then
      m <- get ;;
      match play_task m with
      | Some k => modify (cancel k) ;; modify (set_play_task None)
      | None => ret tt
      end
    else ret tt) ;;
   modify (set_state new_state))%machine.

(** What one turn of the main loop meets outside. *)
Record tick := {
  now : Q;                       (* [time.monotonic()] *)
  status : process_outcome;      (* of [mpc status], if polled *)
  joined : result unit;          (* how the wait for the old task ends *)
  ended : task -> bool;          (* the tasks that ended by themselves
                                    since the last turn *)
  interrupt : option exn         (* raised into the final sleep *)
}.

Definition is_cancel_or_timeout (e : exn) : bool :=
  match e with
  | CancelledError | TimeoutError => true
  | _ => false
  end.

(** The [if now - self.last_poll > POLL_INTERVAL:] block. *)
Definition poll_block (i : tick) : M unit :=
  (new_state <- lift (get_state (status i)) ;;
   m <- get ;;
   (if negb (PlayerState_eqb new_state (state m)) then
      match PlayerState_eqb new_state STATE_IDLE, play_task m with
      | true, Some k =>
          modify (cancel k) ;;
          try_pass (wait_for k (joined i)) is_cancel_or_timeout ;;
          modify (set_play_task None)
      | _, _ => ret tt
      end ;;
      _apply_state new_state
    else ret tt) ;;
   m <- get ;;
   match PlayerState_eqb (state m) STATE_PLAYING, play_task m with
   | true, None => modify create_task
   | _, _ => ret tt
   end ;;
   modify (set_last_poll (now i)))%machine.

(** One turn of [while True:]. *)
Definition turn (i : tick) : M unit :=
  (modify (fun m =>
     set_running (filter (fun k => negb (ended i k)) (running m)) m) ;;
   m <- get ;;
   (if Qgtb (now i - last_poll m) POLL_INTERVAL
    then poll_block i else ret tt) ;;
   m <- get ;;
   (if PlayerState_eqb (state m) STATE_IDLE
    then modify idle_update else ret tt) ;;
   match interrupt i with
   | Some e => raise e
   | None => ret tt
   end)%machine.

(** The loop over the turns the process lives through. *)
Fixpoint turns (l : list tick) : M unit :=
  match l with
  | [] => ret tt
  | i :: rest => (turn i ;; turns rest)%machine
  end.

(** The [finally:] block of [run]. *)
Definition shutdown : M unit :=
  (m <- get ;;
   match play_task m with
   | Some k => modify (cancel k)
   | None => ret tt
   end ;;
   m <- get ;;
   b <- lift (GPIOButton.stop (button m)) ;;
   modify (set_button b))%machine.

(** [run]: the loop ends only by an exception, and then cleans up. *)
Definition run (l : list tick) : M unit :=
  fun m => match turns l m with
           | (Ok u, m') => (Ok u, m')
           | (Raise e, m') =>
               match shutdown m' with
               | (Ok _, m'') => (Raise e, m'')
               | (Raise e', m'') => (Raise e', m'')
               end
           end.

(** [__init__]: the button is set up on pin 22 with the toggle command,
    the first poll gives the state, and [_apply_state] applies it.
    ([self.state] is [None] only before that poll.) *)
Definition __init__ (first : process_outcome) (pin_level : Z) : result t :=
  (s <- get_state first ;;
   let m0 :=
     {| state := s; last_poll := 0;
        render_enabled := true; play_task := None;
        button := GPIOButton.__init__ 22 true GPIOButton.default_debounce pin_level;
        idle_updates := 0;
        running := []; cancelled := []; created := 0; peak := 0 |} in
   match _apply_state s m0 with
   | (Ok _, m) => Ok m
   | (Raise e, _) => Raise e
   end)%py.

End MoodeStateMachine.

(* ================================================================== *)
(** * Notions the properties are stated with *)
(* ================================================================== *)

(** [sep] occurs in [s]. *)
Definition occurs (sep s : str) : Prop :=
  exists pre post, s = pre ++ sep ++ post.

(** [pre] and [post] are what surrounds the first occurrence of [sep]
    in [s]. *)
Definition first_occurrence (sep s pre post : str) : Prop :=
  s = pre ++ sep ++ post /\
  forall pre' post', s = pre' ++ sep ++ post' -> (length pre <= length pre')%nat.

Definition all_space (s : str) : Prop := Forall (fun c => isspace c = true) s.

(** [t] is [s] without its leading and trailing whitespace. *)
Definition trimmed (s t : str) : Prop :=
  (exists l r, s = l ++ t ++ r /\ all_space l /\ all_space r) /\
  (forall c r, t = c :: r -> isspace c = false) /\
  (forall l c, t = l ++ [c] -> isspace c = false).

(** Python's [round] of the fraction [num / den] (for [den > 0]): the
    nearest integer, the even one of the two when they are equally near. *)
Definition round_half_even (num den : Z) : Z :=
  let q := (num / den)%Z in
  let r := (num mod den)%Z in
  if (2 * r <? den)%Z then q
  else if (den <? 2 * r)%Z then (q + 1)%Z
  else if Z.even q then q else (q + 1)%Z.

(** The rectangle of a frame, as (left, right). *)
Fixpoint bar_of (cmds : list draw_cmd) : option (Z * Z) :=
  match cmds with
  | [] => None
  | rectangle x0 _ x1 _ :: _ => Some (x0, x1)
  | _ :: rest => bar_of rest
  end.

(** The width of the volume bar in the latest frame sent to a display:
    the right x-coordinate of its rectangle less the left one. *)
Fixpoint rendered_bar_width (ops : list display_op) : option Z :=
  match ops with
  | [] => None
  | frame cmds :: _ =>
      match bar_of cmds with
      | Some (x0, x1) => Some (x1 - x0)%Z
      | None => None
      end
  | _ :: rest => rendered_bar_width rest
  end.

(** A redraw changes the burn-in shift and the display only. *)
Definition same_content (s s' : PlayingScreen.t) : Prop :=
  PlayingScreen.base s' = PlayingScreen.base s /\
  PlayingScreen._current_title s' = PlayingScreen._current_title s /\
  PlayingScreen._current_volume s' = PlayingScreen._current_volume s /\
  PlayingScreen._scroll_offset_artist s' = PlayingScreen._scroll_offset_artist s /\
  PlayingScreen._scroll_offset_song s' = PlayingScreen._scroll_offset_song s /\
  PlayingScreen._scroll_speed s' = PlayingScreen._scroll_speed s /\
  PlayingScreen._render_enabled s' = PlayingScreen._render_enabled s.

(** Two buttons that differ in [debounce] at most. *)
Definition same_but_debounce (a b : GPIOButton.t) : Prop :=
  GPIOButton.line a = GPIOButton.line b /\
  GPIOButton.on_press a = GPIOButton.on_press b /\
  GPIOButton._last_press a = GPIOButton._last_press b /\
  GPIOButton._stop a = GPIOButton._stop b /\
  GPIOButton.released a = GPIOButton.released b /\
  GPIOButton._last_state a = GPIOButton._last_state b /\
  GPIOButton.presses a = GPIOButton.presses b.

(** The live Playing-screen tasks are at most the one [play_task] holds,
    and there never were two. *)
Definition task_invariant (m : MoodeStateMachine.t) : Prop :=
  (MoodeStateMachine.running m = [] \/
   exists k, MoodeStateMachine.running m = [k] /\
             MoodeStateMachine.play_task m = Some k) /\
  (MoodeStateMachine.peak m <= 1)%nat.

(** The times of a list, latest first, lie at least [gap] apart. *)
Fixpoint spaced (gap : Q) (l : list Q) : Prop :=
  match l with
  | [] => True
  | t2 :: r =>
      match r with
      | [] => True
      | t1 :: _ => (gap <= t2 - t1)%Q
      end /\ spaced gap r
  end.

(** Every sample of the list reads the line low, or fails. *)
Definition held_low (samples : list (Q * option Z)) : Prop :=
  Forall (fun s => snd s = Some 0%Z \/ snd s = None) samples.

(** The entries of a log start no earlier than [t0], [t0 + step],
    [t0 + 2 step], ... *)
Fixpoint not_before (t0 step : Q) (log : list (Q * list NowPlayingExtractHandler.call))
  : Prop :=
  match log with
  | [] => True
  | (t, _) :: r => (t0 <= t)%Q /\ not_before (t0 + step)%Q step r
  end.

(** The entries of a log start at [t0], [t0 + step], [t0 + 2 step], ... *)
Fixpoint on_grid (t0 step : Q) (log : list (Q * list NowPlayingExtractHandler.call))
  : Prop :=
  match log with
  | [] => True
  | (t, _) :: r => (t == t0)%Q /\ on_grid (t0 + step)%Q step r
  end.


(** A drawing primitive moved by [(dx, dy)]. *)
Definition translate (dx dy : Z) (c : draw_cmd) : draw_cmd :=
  match c with
  | text x y s f => text (x + dx) (y + dy) s f
  | rectangle x0 y0 x1 y1 => rectangle (x0 + dx) (y0 + dy) (x1 + dx) (y1 + dy)
  end.

(** What holds of a Playing screen from its construction on. *)
Definition screen_invariant (s : PlayingScreen.t) : Prop :=
  PlayingScreen._current_title s <> [] /\
  (0 <= PlayingScreen._current_volume s <= 100)%Z /\
  (0 <= PlayingScreen.shift_x s < 4)%Z /\
  PlayingScreen.shift_y s = PlayingScreen.shift_x s /\
  PlayingScreen._scroll_speed s = 2%Z /\
  PlayingScreen._scroll_gap s = 20%Z /\
  (0 <= PlayingScreen._scroll_offset_artist s)%Z /\
  PlayingScreen._scroll_offset_song s = PlayingScreen._scroll_offset_artist s /\
  NowPlayingExtractHandler.last_title (PlayingScreen.base s)
    = or_empty (extract_title
                  (NowPlayingExtractHandler._last_metadata (PlayingScreen.base s))).

(** The machine's flag and handle agree with its state. *)
Definition machine_consistent (m : MoodeStateMachine.t) : Prop :=
  MoodeStateMachine.render_enabled m
    = PlayerState_eqb (MoodeStateMachine.state m) STATE_PLAYING /\
  (MoodeStateMachine.state m = STATE_IDLE ->
   MoodeStateMachine.play_task m = None).

(** The only primitives of a frame are two texts, the time above the
    date. *)
Definition idle_frame (x dx : Z) (time date : str) : display_op :=
  frame [text x 12 time font_big; text dx 50 date font_small].

(** The presses recorded so far are spaced, and the latest is the one
    [_last_press] remembers. *)
Definition presses_spaced (b : GPIOButton.t) : Prop :=
  spaced (5 # 100) (GPIOButton.presses b) /\
  match GPIOButton.presses b with
  | [] => True
  | t :: _ => GPIOButton._last_press b = t
  end.

(** No position of [s] before [n] starts a tag followed by a title
    character. *)
Definition no_title_before (n : nat) (s : str) : Prop :=
  forall pre c post,
    s = pre ++ StreamTitle_tag ++ c :: post ->
    title_char c = true -> (n <= length pre)%nat.

(** The part of [screen_invariant] the callbacks are concerned with. *)
Definition display_invariant (s : PlayingScreen.t) : Prop :=
  PlayingScreen._current_title s <> [] /\
  (0 <= PlayingScreen._current_volume s <= 100)%Z /\
  (0 <= PlayingScreen.shift_x s < 4)%Z /\
  PlayingScreen.shift_y s = PlayingScreen.shift_x s /\
  PlayingScreen._scroll_speed s = 2%Z /\
  PlayingScreen._scroll_gap s = 20%Z /\
  (0 <= PlayingScreen._scroll_offset_artist s)%Z /\
  PlayingScreen._scroll_offset_song s = PlayingScreen._scroll_offset_artist s.

(** What a disabled screen keeps through a redraw. *)
Definition undrawn (s s' : PlayingScreen.t) : Prop :=
  PlayingScreen.display s' = PlayingScreen.display s /\
  PlayingScreen.shift_x s' = PlayingScreen.shift_x s /\
  PlayingScreen.shift_y s' = PlayingScreen.shift_y s /\
  PlayingScreen.last_shift s' = PlayingScreen.last_shift s.

(** The callbacks of a cycle: the update callback alone, or the title
    callback and then the update callback. *)
Definition update_runs_last (calls : list NowPlayingExtractHandler.call) : Prop :=
  calls = [NowPlayingExtractHandler.Update] \/
  exists t, calls = [NowPlayingExtractHandler.Title t;
                     NowPlayingExtractHandler.Update].

(** ** Values the properties are tried on *)

(** A fixed-pitch stand-in for the font: eight pixels a character. *)
Definition demo_width (s : str) : Z := 8 * Z.of_nat (length s).

Definition demo_clock : clock :=
  {| time_time := 1700000000; strftime := lit "2026-01-01 12:00" |}.

Definition demo_volume : volume_sources :=
  {| mpc_volume := Reading 73; api_volume := NoReading |}.

Definition demo_tick : PlayingScreen.tick :=
  {| PlayingScreen.title_clock := demo_clock;
     PlayingScreen.volume := demo_volume;
     PlayingScreen.update_clock := demo_clock |}.

(** The Playing screen as the state machine builds it. *)
Definition demo_screen : result PlayingScreen.t :=
  PlayingScreen.__init__ demo_width PlayingScreen.default_interval
    PlayingScreen.default_contrast demo_volume demo_clock.

(** The reader of that screen, before its first poll. *)
Definition demo_reader : NowPlayingExtractHandler.t :=
  NowPlayingExtractHandler.__init__ PlayingScreen.default_interval true true.

Definition demo_block : str := lit "StreamTitle='Artist X - Song Y';".

(** A block that carries no title. *)
Definition demo_titleless_block : str := lit "StreamUrl='http://example.org';".

(** Two answers of [mpc status], and a turn of the main loop at time [t]. *)
Definition playing_status : process_outcome :=
  Exited 0 (Some (lit "Radio Most" ++ [10%N] ++ lit "[playing] #1/1   0:12/0:00 (0%)")).

Definition paused_status : process_outcome :=
  Exited 0 (Some (lit "Radio Most" ++ [10%N] ++ lit "[paused]  #1/1   0:12/0:00 (0%)")).

Definition turn_at (t : Q) (q : process_outcome) (j : result unit)
  : MoodeStateMachine.tick :=
  {| MoodeStateMachine.now := t;
     MoodeStateMachine.status := q;
     MoodeStateMachine.joined := j;
     MoodeStateMachine.ended := fun _ => false;
     MoodeStateMachine.interrupt := None |}.

(** A request that hangs for five seconds, and one that answers at once. *)
Definition slow_cycle : NowPlayingExtractHandler.cycle :=
  {| NowPlayingExtractHandler.took := 5;
     NowPlayingExtractHandler.fetched := NowPlayingExtractHandler.Block demo_block;
     NowPlayingExtractHandler.busy := 0 |}.

Definition quick_cycle : NowPlayingExtractHandler.cycle :=
  {| NowPlayingExtractHandler.took := 0;
     NowPlayingExtractHandler.fetched := NowPlayingExtractHandler.Block demo_block;
     NowPlayingExtractHandler.busy := 0 |}.

(** Two cycles of the Playing screen's loop: a quick read and one that
    hangs. *)
Definition demo_cycles : list (NowPlayingExtractHandler.cycle * PlayingScreen.tick) :=
  [(quick_cycle, demo_tick); (slow_cycle, demo_tick)].

(** The button as the state machine builds it, the line at rest. *)
Definition demo_button : GPIOButton.t :=
  GPIOButton.__init__ 22 true GPIOButton.default_debounce 1.

(** Released at 1.00 s, pressed at 1.01 s, released at 1.04 s, pressed
    again at 1.07 s. *)
Definition bounce_samples : list (Q * option Z) :=
  [((100 # 100)%Q, Some 1%Z); ((101 # 100)%Q, Some 0%Z);
   ((104 # 100)%Q, Some 1%Z); ((107 # 100)%Q, Some 0%Z)].

(* ================================================================== *)
(** * Strings: the primitives meet their descriptions *)
(* ================================================================== *)

Lemma eqb_eq : forall s t, eqb s t = true <-> s = t.
Proof.
  induction s as [|a s IH]; destruct t as [|b t]; simpl; split;
    try congruence; try reflexivity.
  - intro H. apply andb_true_iff in H. destruct H as [Hab Hst].
    apply N.eqb_eq in Hab. apply IH in Hst. congruence.
  - intro H. inversion H; subst. rewrite N.eqb_refl. simpl. now apply IH.
Qed.

Lemma eqb_refl : forall s, eqb s s = true.
Proof. intro s. now apply eqb_eq. Qed.

Lemma eqb_neq : forall s t, eqb s t = false <-> s <> t.
Proof.
  intros s t. split.
  - intros H E. apply eqb_eq in E. congruence.
  - intro H. destruct (eqb s t) eqn:E; [|reflexivity].
    apply eqb_eq in E. contradiction.
Qed.

Lemma truthy_true : forall s, truthy s = true <-> s <> [].
Proof. destruct s; simpl; split; congruence. Qed.

Lemma startswith_prefix : forall p s,
  startswith p s = true <-> exists r, s = p ++ r.
Proof.
  induction p as [|a p IH]; intros s; simpl.
  - split; [intros _; now exists s | reflexivity].
  - destruct s as [|b s].
    + split; [discriminate | intros [r H]; discriminate].
    + rewrite andb_true_iff, N.eqb_eq, IH. split.
      * intros [-> [r ->]]. now exists r.
      * intros [r H]. inversion H; subst. split; [reflexivity | now exists r].
Qed.

Lemma find_Some : forall sub s i,
  find sub s = Some i ->
  first_occurrence sub s (firstn i s) (skipn (i + length sub) s) /\
  length (firstn i s) = i.
Proof.
  intros sub s. induction s as [|c r IH]; intros i H.
  - simpl in H. destruct (startswith sub []) eqn:E; [|discriminate].
    inversion H; subst. apply startswith_prefix in E. destruct E as [r E].
    symmetry in E. apply app_eq_nil in E. destruct E as [-> ->].
    repeat split; simpl; auto with arith.
  - cbn [find] in H. destruct (startswith sub (c :: r)) eqn:E.
    + inversion H; subst. apply startswith_prefix in E. destruct E as [r' E].
      repeat split.
      * simpl firstn. simpl plus. rewrite E at 2.
        rewrite skipn_app, skipn_all, Nat.sub_diag. simpl. exact E.
      * intros. simpl. auto with arith.
    + destruct (find sub r) as [j|] eqn:F; [|discriminate].
      inversion H; subst. destruct (IH j eq_refl) as [[Hs Hmin] Hlen].
      repeat split.
      * simpl. now f_equal.
      * intros pre' post' Hp. destruct pre' as [|c' pre'].
        -- simpl in Hp. assert (startswith sub (c :: r) = true)
             by (apply startswith_prefix; now exists post').
           congruence.
        -- simpl in Hp. injection Hp as _ Hr. simpl.
           apply le_n_S. exact (Hmin pre' post' Hr).
      * simpl. now f_equal.
Qed.

Lemma find_None : forall sub s, find sub s = None -> ~ occurs sub s.
Proof.
  intros sub s. induction s as [|c r IH]; intros H [pre [post E]].
  - simpl in H. destruct (startswith sub []) eqn:S0; [discriminate|].
    symmetry in E. apply app_eq_nil in E. destruct E as [-> E].
    apply app_eq_nil in E. destruct E as [-> ->]. discriminate.
  - cbn [find] in H. destruct (startswith sub (c :: r)) eqn:S0; [discriminate|].
    destruct (find sub r) eqn:F; [discriminate|].
    destruct pre as [|c' pre].
    + simpl in E. assert (startswith sub (c :: r) = true)
        by (apply startswith_prefix; now exists post).
      congruence.
    + simpl in E. injection E as _ Er. apply IH; [reflexivity|].
      now exists pre, post.
Qed.

Lemma contains_occurs : forall sub s, contains sub s = true <-> occurs sub s.
Proof.
  intros sub s. unfold contains. destruct (find sub s) as [i|] eqn:F.
  - split; [intros _ | reflexivity].
    destruct (find_Some _ _ _ F) as [[E _] _]. eexists; eexists; exact E.
  - split; [discriminate|]. intro H. now apply find_None in F.
Qed.

Lemma split1_first : forall sep s,
  occurs sep s ->
  exists pre post, first_occurrence sep s pre post /\ split1 sep s = [pre; post].
Proof.
  intros sep s H. unfold split1. destruct (find sep s) as [i|] eqn:F.
  - destruct (find_Some _ _ _ F) as [Hf _]. eauto.
  - now apply find_None in F.
Qed.

Lemma lstrip_spec : forall s,
  exists l, s = l ++ lstrip s /\ all_space l /\
            forall c r, lstrip s = c :: r -> isspace c = false.
Proof.
  induction s as [|c s [l [E [Hl Hh]]]].
  - exists []. repeat split; [constructor | discriminate].
  - simpl. destruct (isspace c) eqn:Hc.
    + exists (c :: l). repeat split.
      * simpl. now f_equal.
      * now constructor.
      * exact Hh.
    + exists []. repeat split; [constructor|].
      intros c' r' H. now inversion H; subst.
Qed.

Lemma rstrip_spec : forall s,
  exists r, s = rstrip s ++ r /\ all_space r /\
            forall l c, rstrip s = l ++ [c] -> isspace c = false.
Proof.
  intro s. unfold rstrip.
  destruct (lstrip_spec (rev s)) as [l [E [Hl Hh]]].
  exists (rev l). repeat split.
  - rewrite <- rev_app_distr, <- E. symmetry. apply rev_involutive.
  - unfold all_space. now apply Forall_rev.
  - intros l' c H. apply (f_equal (@rev _)) in H.
    rewrite rev_involutive, rev_app_distr in H. simpl in H.
    now apply (Hh c (rev l')).
Qed.

Lemma strip_trimmed : forall s, trimmed s (strip s).
Proof.
  intro s. unfold strip.
  destruct (lstrip_spec s) as [l [El [Hl Hhead]]].
  destruct (rstrip_spec (lstrip s)) as [r [Er [Hr Hlast]]].
  repeat split.
  - exists l, r. repeat split; try assumption.
    rewrite <- Er. exact El.
  - intros c t H. rewrite H in Er. simpl in Er. now apply (Hhead c (t ++ r)).
  - exact Hlast.
Qed.

Lemma split_artist_title_pair : forall title,
  exists a b, PlayingScreen.split_artist_title title = [a; b].
Proof.
  intro title. unfold PlayingScreen.split_artist_title.
  destruct (contains (lit "_-_") title) eqn:C1.
  - apply contains_occurs in C1.
    destruct (split1_first _ _ C1) as [pre [post [_ ->]]]. simpl. eauto.
  - destruct (contains (lit " - ") title) eqn:C2.
    + apply contains_occurs in C2.
      destruct (split1_first _ _ C2) as [pre [post [_ ->]]]. simpl. eauto.
    + eauto.
Qed.

Lemma contains_false : forall sub s, contains sub s = false <-> ~ occurs sub s.
Proof.
  intros sub s. rewrite <- contains_occurs.
  destruct (contains sub s); split; congruence.
Qed.

(* ================================================================== *)
(** * C3: the artist and the song *)
(* ================================================================== *)

(** C3. For every title [T]: when ["_-_"] occurs in [T],
    [split_artist_title] gives the text before and the text after its
    first occurrence, each without its surrounding whitespace; when it does
    not and [" - "] occurs, the same holds for that separator; otherwise
    the result is [T] without its surrounding whitespace, and the empty
    string.  The function of [moode_display.py] returns the same two
    strings.  The result depends on [T] alone: both are functions of the
    title. *)
Theorem split_artist_title_first_separator : forall T : str,
  (occurs (lit "_-_") T ->
   exists pre post,
     first_occurrence (lit "_-_") T pre post /\
     PlayingScreen.split_artist_title T = [strip pre; strip post] /\
     trimmed pre (strip pre) /\ trimmed post (strip post)) /\
  (~ occurs (lit "_-_") T -> occurs (lit " - ") T ->
   exists pre post,
     first_occurrence (lit " - ") T pre post /\
     PlayingScreen.split_artist_title T = [strip pre; strip post] /\
     trimmed pre (strip pre) /\ trimmed post (strip post)) /\
  (~ occurs (lit "_-_") T -> ~ occurs (lit " - ") T ->
   PlayingScreen.split_artist_title T = [strip T; []] /\
   trimmed T (strip T)) /\
  (exists a b,
     PlayingScreen.split_artist_title T = [a; b] /\
     OLEDNowPlayingWithVolumeHandler.split_artist_title T = Ok (a, b)).
Proof.
  intro T. unfold PlayingScreen.split_artist_title,
    OLEDNowPlayingWithVolumeHandler.split_artist_title.
  split; [|split; [|split]].
  - intro H1. destruct (split1_first _ _ H1) as [pre [post [Hf Hs]]].
    exists pre, post. apply contains_occurs in H1. rewrite H1, Hs.
    split; [exact Hf|]. split; [reflexivity|].
    split; apply strip_trimmed.
  - intros N1 H2. destruct (split1_first _ _ H2) as [pre [post [Hf Hs]]].
    exists pre, post. apply contains_occurs in H2. apply contains_false in N1.
    rewrite N1, H2, Hs.
    split; [exact Hf|]. split; [reflexivity|].
    split; apply strip_trimmed.
  - intros N1 N2. apply contains_false in N1. apply contains_false in N2.
    rewrite N1, N2. split; [reflexivity | apply strip_trimmed].
  - destruct (contains (lit "_-_") T) eqn:C1.
    + apply contains_occurs in C1.
      destruct (split1_first _ _ C1) as [pre [post [_ ->]]]. simpl. eauto.
    + destruct (contains (lit " - ") T) eqn:C2.
      * apply contains_occurs in C2.
        destruct (split1_first _ _ C2) as [pre [post [_ ->]]]. simpl. eauto.
      * eauto.
Qed.

(* ================================================================== *)
(** * C2: the reader compares whole blocks *)
(* ================================================================== *)

Lemma or_empty_None : forall B, extract_title B = None -> or_empty (extract_title B) = [].
Proof. intros B H. now rewrite H. Qed.

Lemma on_metadata_same : forall B h,
  B <> [] -> B = NowPlayingExtractHandler._last_metadata h ->
  NowPlayingExtractHandler.on_metadata B h =
  (h, if NowPlayingExtractHandler.has_coro h
      then [NowPlayingExtractHandler.Title None] else []).
Proof.
  intros B h Hne Heq. unfold NowPlayingExtractHandler.on_metadata.
  apply truthy_true in Hne. rewrite Hne.
  apply eqb_eq in Heq. now rewrite Heq.
Qed.

Lemma on_metadata_new : forall B h,
  B <> [] -> B <> NowPlayingExtractHandler._last_metadata h ->
  NowPlayingExtractHandler.on_metadata B h =
  (NowPlayingExtractHandler.store B (or_empty (extract_title B)) h,
   if NowPlayingExtractHandler.has_coro h
   then [NowPlayingExtractHandler.Title (Some (or_empty (extract_title B)))]
   else []).
Proof.
  intros B h Hne Hd. unfold NowPlayingExtractHandler.on_metadata.
  apply truthy_true in Hne. rewrite Hne.
  apply eqb_neq in Hd. now rewrite Hd.
Qed.

(** A cycle of [_loop] whose read returns [meta] is [poll_cycle meta]:
    the reader's state after it and the callbacks it awaited. *)
Lemma _loop_single_cycle : forall c now next_t h meta waited,
  NowPlayingExtractHandler._stop_event h = false ->
  NowPlayingExtractHandler._read_metadata_async
    (NowPlayingExtractHandler.took c) (NowPlayingExtractHandler.fetched c)
    = (Ok meta, waited) ->
  NowPlayingExtractHandler._loop_from [c] now next_t h
  = Ok (fst (NowPlayingExtractHandler.poll_cycle meta h),
        [(now, snd (NowPlayingExtractHandler.poll_cycle meta h))]).
Proof.
  intros c now next_t h meta waited Hs Hr. simpl. rewrite Hs, Hr.
  destruct (NowPlayingExtractHandler.poll_cycle meta h) as [h' calls].
  reflexivity.
Qed.

(** C2. Let [B] be a non-empty metadata block read in a poll cycle of a
    reader that has a title callback.  If [B] is the stored block, the
    cycle calls the title callback with [None] and leaves the stored block
    and the last title as they are.  If [B] differs from the stored block,
    the cycle stores [B], sets the last title to the title extracted from
    [B] (the empty string when [StreamTitle] does not match) and calls the
    title callback with it.  In both cases the only other call of the cycle
    is the update callback. *)
Theorem reader_compares_whole_block :
  forall (B : str) (h : NowPlayingExtractHandler.t),
    B <> [] ->
    NowPlayingExtractHandler.has_coro h = true ->
    let update :=
      if NowPlayingExtractHandler.has_update_coro h
      then [NowPlayingExtractHandler.Update] else [] in
    (B = NowPlayingExtractHandler._last_metadata h ->
     NowPlayingExtractHandler.poll_cycle B h =
     (h, NowPlayingExtractHandler.Title None :: update)) /\
    (B <> NowPlayingExtractHandler._last_metadata h ->
     exists h',
       NowPlayingExtractHandler.poll_cycle B h =
       (h', NowPlayingExtractHandler.Title
              (Some (or_empty (extract_title B))) :: update) /\
       NowPlayingExtractHandler._last_metadata h' = B /\
       NowPlayingExtractHandler.last_title h' = or_empty (extract_title B) /\
       (extract_title B = None -> NowPlayingExtractHandler.last_title h' = [])).
Proof.
  intros B h Hne Hc update. unfold NowPlayingExtractHandler.poll_cycle. split.
  - intro Heq. rewrite (on_metadata_same B h Hne Heq), Hc. reflexivity.
  - intro Hd. rewrite (on_metadata_new B h Hne Hd), Hc.
    eexists. split; [reflexivity|]. simpl. repeat split.
    intro Hn. now rewrite Hn.
Qed.

(** The first block of a stream, ["StreamTitle='Artist X - Song Y';"]:
    it is stored and its title is passed on. *)
Lemma reader_compares_whole_block_witness :
  (demo_block <> [] /\
   NowPlayingExtractHandler.has_coro demo_reader = true) /\
  exists h',
    NowPlayingExtractHandler.poll_cycle demo_block demo_reader
      = (h', [NowPlayingExtractHandler.Title (Some (lit "Artist X - Song Y"));
              NowPlayingExtractHandler.Update]) /\
    NowPlayingExtractHandler._last_metadata h' = demo_block /\
    NowPlayingExtractHandler.last_title h' = lit "Artist X - Song Y".
Proof.
  assert (Hne : demo_block <> []) by discriminate.
  assert (Hd : demo_block <> NowPlayingExtractHandler._last_metadata demo_reader)
    by discriminate.
  split; [split; [exact Hne | reflexivity]|].
  destruct (proj2 (reader_compares_whole_block demo_block demo_reader Hne eq_refl) Hd)
    as [h' [E [E1 [E2 _]]]].
  exists h'. split; [exact E|]. split; [exact E1 | exact E2].
Defined.

(* ================================================================== *)
(** * The Playing screen's redraw and callbacks *)
(* ================================================================== *)

Section PlayingScreenFacts.

Variable text_width : str -> Z.

Import PlayingScreen.

Lemma same_content_refl : forall s, same_content s s.
Proof. intro s. repeat split. Qed.

Lemma _draw_ok : forall c s,
  exists s', _draw text_width c s = Ok s' /\ same_content s s'.
Proof.
  intros c s. unfold _draw.
  destruct (_render_enabled s) eqn:R; simpl.
  - destruct (Qgeb (time_time c - last_shift s) 60);
      [ destruct (split_artist_title_pair (_current_title
                   (set_shift ((shift_x s + 1) mod 4) ((shift_y s + 1) mod 4)
                              (time_time c) s))) as [a [b E]]
      | destruct (split_artist_title_pair (_current_title s)) as [a [b E]] ];
      rewrite E; simpl; eexists; (split; [reflexivity|]);
      repeat split; simpl; auto.
  - exists s. split; [reflexivity | apply same_content_refl].
Qed.

(** A title that is [None], empty or the one on display changes
    nothing. *)
Lemma _oled_title_coro_idle : forall title c s,
  title = None \/ title = Some [] \/ title = Some (_current_title s) ->
  _oled_title_coro text_width title c s = Ok s.
Proof.
  intros title c s [-> | [-> | ->]]; simpl; try reflexivity.
  rewrite eqb_refl. now rewrite andb_false_r.
Qed.

(** A non-empty title other than the one on display replaces it and
    puts both offsets back to 0. *)
Lemma _oled_title_coro_new : forall T c s,
  T <> [] -> T <> _current_title s ->
  exists s', _oled_title_coro text_width (Some T) c s = Ok s' /\
             _current_title s' = T /\
             _scroll_offset_artist s' = 0%Z /\
             _scroll_offset_song s' = 0%Z.
Proof.
  intros T c s Hne Hd. simpl.
  apply truthy_true in Hne. apply eqb_neq in Hd. rewrite Hne, Hd. simpl.
  destruct (_draw_ok c (set_title T s)) as [s' [E [_ [Ht [_ [Ha [Hs _]]]]]]].
  exists s'. split; [exact E|]. simpl in *. auto.
Qed.

Lemma _oled_update_coro_ok : forall v c s,
  exists s', _oled_update_coro text_width v c s = Ok s' /\
             _scroll_offset_artist s' = (_scroll_offset_artist s + _scroll_speed s)%Z /\
             _scroll_offset_song s' = (_scroll_offset_song s + _scroll_speed s)%Z /\
             _scroll_speed s' = _scroll_speed s /\
             _current_title s' = _current_title s /\
             _current_volume s' = get_volume_percent v.
Proof.
  intros v c s. unfold _oled_update_coro.
  destruct (_draw_ok c (advance (get_volume_percent v) s))
    as [s' [E [_ [Ht [Hv [Ha [Hs [Hsp _]]]]]]]].
  exists s'. split; [exact E|]. simpl in *. auto.
Qed.

End PlayingScreenFacts.

(** The two cases of the title callback. *)
Lemma title_callback_cases :
  forall (text_width : str -> Z) (c : clock) (s : PlayingScreen.t) title,
    (title = None \/ title = Some [] \/
     title = Some (PlayingScreen._current_title s)) \/
    (exists T, title = Some T /\ T <> [] /\ T <> PlayingScreen._current_title s).
Proof.
  intros text_width c s [T|]; [|now left; left].
  destruct T as [|a T']; [now left; right; left|].
  destruct (eqb (a :: T') (PlayingScreen._current_title s)) eqn:E.
  - apply eqb_eq in E. left. right. right. now rewrite E.
  - apply eqb_neq in E. right. exists (a :: T'). repeat split; [discriminate | exact E].
Qed.

(* ================================================================== *)
(** * C4: when the scroll offsets go back to 0 *)
(* ================================================================== *)

(** C4, as amended.  The title callback puts both scroll offsets back to 0
    exactly when it is given a non-empty title other than the one on
    display; given [None] (no change), the empty title or the title on
    display it changes nothing at all.  The update callback never resets
    the offsets: it always adds the scroll step to both, keeps the step and
    leaves the title alone, whatever the volume it reads. *)
Theorem scroll_offsets_reset_on_new_nonempty_title :
  forall (text_width : str -> Z) (c : clock) (s : PlayingScreen.t),
    (forall title,
       exists s',
         PlayingScreen._oled_title_coro text_width title c s = Ok s' /\
         ((exists T, title = Some T /\ T <> [] /\
                     T <> PlayingScreen._current_title s /\
                     PlayingScreen._current_title s' = T /\
                     PlayingScreen._scroll_offset_artist s' = 0%Z /\
                     PlayingScreen._scroll_offset_song s' = 0%Z)
          \/
          ((title = None \/ title = Some [] \/
            title = Some (PlayingScreen._current_title s)) /\ s' = s))) /\
    (forall v,
       exists s',
         PlayingScreen._oled_update_coro text_width v c s = Ok s' /\
         PlayingScreen._scroll_offset_artist s' =
           (PlayingScreen._scroll_offset_artist s + PlayingScreen._scroll_speed s)%Z /\
         PlayingScreen._scroll_offset_song s' =
           (PlayingScreen._scroll_offset_song s + PlayingScreen._scroll_speed s)%Z /\
         PlayingScreen._scroll_speed s' = PlayingScreen._scroll_speed s /\
         PlayingScreen._current_title s' = PlayingScreen._current_title s).
Proof.
  intros text_width c s. split.
  - intros [T|].
    + destruct T as [|a T'].
      * exists s. split; [now apply _oled_title_coro_idle; auto|].
        right. auto.
      * destruct (eqb (a :: T') (PlayingScreen._current_title s)) eqn:E.
        -- apply eqb_eq in E. exists s. split.
           ++ apply _oled_title_coro_idle. right. right. now rewrite E.
           ++ right. split; [|reflexivity]. right. right. now rewrite E.
        -- apply eqb_neq in E.
           destruct (_oled_title_coro_new text_width (a :: T') c s) as [s' [H1 [H2 [H3 H4]]]];
             [discriminate | exact E |].
           exists s'. split; [exact H1|]. left. exists (a :: T').
           repeat split; auto. discriminate.
    + exists s. split; [now apply _oled_title_coro_idle; auto|]. right. auto.
  - intro v.
    destruct (_oled_update_coro_ok text_width v c s) as [s' [H1 [H2 [H3 [H4 [H5 _]]]]]].
    exists s'. auto.
Qed.

(** The step is the one set at construction, 2. *)
Lemma scroll_speed_at_init : forall tw i k v c s,
  PlayingScreen.__init__ tw i k v c = Ok s -> PlayingScreen._scroll_speed s = 2%Z.
Proof.
  intros tw i k v c s H. unfold PlayingScreen.__init__ in H.
  match type of H with PlayingScreen._draw _ _ ?s0 = _ =>
    destruct (_draw_ok tw c s0) as [s' [E [_ [_ [_ [_ [_ [Hs _]]]]]]]] end.
  rewrite E in H. inversion H; subst. exact Hs.
Qed.

(** C4, as stated, fails: after the first titled block the offsets stand
    at 2; the next block has no title, so the callback is given the empty
    title, which differs from the title on display, and the offsets are
    not reset. *)
Lemma empty_title_differs_but_keeps_offsets :
  exists s0 s1 s2 h,
    demo_screen = Ok s0 /\
    PlayingScreen.poll demo_width demo_tick demo_block s0 = Ok s1 /\
    PlayingScreen._current_title s1 = lit "Artist X - Song Y" /\
    PlayingScreen._scroll_offset_artist s1 = 2%Z /\
    PlayingScreen._scroll_offset_song s1 = 2%Z /\
    NowPlayingExtractHandler.on_metadata demo_titleless_block (PlayingScreen.base s1)
      = (h, [NowPlayingExtractHandler.Title (Some [])]) /\
    [] <> PlayingScreen._current_title s1 /\
    PlayingScreen._oled_title_coro demo_width (Some []) demo_clock s1 = Ok s2 /\
    PlayingScreen._scroll_offset_artist s2 = 2%Z /\
    PlayingScreen._scroll_offset_song s2 = 2%Z.
Proof.
  do 4 eexists.
  split; [vm_compute; reflexivity|].
  split; [vm_compute; reflexivity|].
  split; [vm_compute; reflexivity|].
  split; [reflexivity|].
  split; [reflexivity|].
  split; [vm_compute; reflexivity|].
  split; [discriminate|].
  split; [vm_compute; reflexivity|].
  split; reflexivity.
Qed.

(* ================================================================== *)
(** * C10: a block without a title keeps what is on display *)
(* ================================================================== *)

(** C10. Let [B] be a non-empty block that differs from the stored one and
    in which [StreamTitle] does not match.  The reader stores [B] with an
    empty title, and the title stage of the cycle leaves the Playing screen
    as it was: the title on display, the artist and song derived from it,
    both scroll offsets and the display itself are unchanged.  In general
    the title callback changes the screen only when it is given a title
    that is non-empty and differs from the one on display. *)
Theorem titleless_block_keeps_display :
  forall (text_width : str -> Z) (e : PlayingScreen.tick) (B : str)
         (s : PlayingScreen.t),
    B <> [] ->
    B <> NowPlayingExtractHandler._last_metadata (PlayingScreen.base s) ->
    extract_title B = None ->
    (exists s',
       PlayingScreen.title_stage text_width e B s = Ok s' /\
       s' = PlayingScreen.set_base
              (NowPlayingExtractHandler.store B [] (PlayingScreen.base s)) s /\
       PlayingScreen._current_title s' = PlayingScreen._current_title s /\
       PlayingScreen.split_artist_title (PlayingScreen._current_title s') =
         PlayingScreen.split_artist_title (PlayingScreen._current_title s) /\
       PlayingScreen._scroll_offset_artist s' = PlayingScreen._scroll_offset_artist s /\
       PlayingScreen._scroll_offset_song s' = PlayingScreen._scroll_offset_song s /\
       PlayingScreen.display s' = PlayingScreen.display s) /\
    (forall title c s1 s2,
       PlayingScreen._oled_title_coro text_width title c s1 = Ok s2 ->
       s2 <> s1 ->
       exists T, title = Some T /\ T <> [] /\ T <> PlayingScreen._current_title s1).
Proof.
  intros text_width e B s Hne Hd Hnone. split.
  - unfold PlayingScreen.title_stage.
    rewrite (on_metadata_new B _ Hne Hd), Hnone. simpl or_empty.
    eexists. split.
    + destruct (NowPlayingExtractHandler.has_coro (PlayingScreen.base s));
        simpl; reflexivity.
    + repeat split.
  - intros title c s1 s2 H Hch.
    destruct (title_callback_cases text_width c s1 title)
      as [Hidle | [T [-> [H1 H2]]]].
    + rewrite (_oled_title_coro_idle text_width title c s1 Hidle) in H.
      inversion H; subst. contradiction.
    + now exists T.
Qed.

(** A block without a title, after a titled one. *)
Lemma titleless_block_keeps_display_witness :
  exists s s',
    demo_screen = Ok s /\
    PlayingScreen.title_stage demo_width demo_tick demo_titleless_block s = Ok s' /\
    PlayingScreen._current_title s' = PlayingScreen._current_title s /\
    PlayingScreen._scroll_offset_artist s' = PlayingScreen._scroll_offset_artist s /\
    PlayingScreen._scroll_offset_song s' = PlayingScreen._scroll_offset_song s /\
    PlayingScreen.display s' = PlayingScreen.display s.
Proof.
  destruct demo_screen as [s|] eqn:E; [|discriminate E].
  exists s.
  assert (Hd : demo_titleless_block <>
               NowPlayingExtractHandler._last_metadata (PlayingScreen.base s)).
  { vm_compute in E. injection E as <-. discriminate. }
  destruct (titleless_block_keeps_display demo_width demo_tick
              demo_titleless_block s ltac:(discriminate) Hd eq_refl)
    as [[s' [H1 [_ [H2 [_ [H3 [H4 H5]]]]]]] _].
  exists s'. repeat split; assumption.
Defined.

(* ================================================================== *)
(** * C6: the width of the volume bar *)
(* ================================================================== *)

Lemma clamp_percent_range : forall n, (0 <= clamp_percent n <= 100)%Z.
Proof. intro n. unfold clamp_percent. lia. Qed.

Lemma get_volume_percent_range : forall v, (0 <= get_volume_percent v <= 100)%Z.
Proof.
  intros [[n|] [k|]]; unfold get_volume_percent; simpl;
    try apply clamp_percent_range; lia.
Qed.

Lemma bar_of_scroll_text : forall tw s txt y off rest,
  bar_of (PlayingScreen._scroll_text tw s txt y off ++ rest) = bar_of rest.
Proof.
  intros. unfold PlayingScreen._scroll_text.
  destruct (tw txt <=? 128)%Z; reflexivity.
Qed.

Lemma _draw_bar : forall tw c s,
  PlayingScreen._render_enabled s = true ->
  exists s', PlayingScreen._draw tw c s = Ok s' /\
             rendered_bar_width (PlayingScreen.display s') =
               Some (PlayingScreen.bar_w (PlayingScreen._current_volume s)).
Proof.
  intros tw c s R. unfold PlayingScreen._draw. rewrite R. simpl negb. cbv iota.
  set (s1 := if Qgeb (time_time c - PlayingScreen.last_shift s) 60
             then PlayingScreen.set_shift _ _ _ s else s).
  assert (Hv : PlayingScreen._current_volume s1 = PlayingScreen._current_volume s)
    by (unfold s1; destruct (Qgeb _ 60); reflexivity).
  destruct (split_artist_title_pair (PlayingScreen._current_title s1)) as [a [b E]].
  rewrite E. cbn -[Z.add Z.sub PlayingScreen.bar_w].
  eexists. split; [reflexivity|]. cbn -[Z.add Z.sub PlayingScreen.bar_w].
  destruct (truthy a); destruct (truthy b);
    cbn -[Z.add Z.sub PlayingScreen.bar_w];
    repeat rewrite bar_of_scroll_text;
    cbn -[Z.add Z.sub PlayingScreen.bar_w]; rewrite Hv; f_equal; lia.
Qed.

(** C6, as amended.  The bar drawn for a volume [vol] between 0 and 100 is
    the integer part of [bar_max_width * vol / 100], not its rounding: it
    is at least 0, at most [bar_max_width], and 65 of 90 pixels (51 of 70
    in [moode_display.py]) when the volume source returns 73.  A redraw of
    an enabled Playing screen after the volume was read draws a bar of that
    width, and the volume read always lies between 0 and 100. *)
Theorem volume_bar_is_truncated_product :
  forall (text_width : str -> Z) (v : volume_sources) (c : clock)
         (s : PlayingScreen.t),
    let vol := get_volume_percent v in
    let w := PlayingScreen.bar_w vol in
    (0 <= vol <= 100)%Z /\
    (100 * w <= PlayingScreen.bar_max_width * vol < 100 * (w + 1))%Z /\
    (0 <= w <= PlayingScreen.bar_max_width)%Z /\
    (vol = 73%Z -> w = 65%Z) /\
    (0 <= OLEDNowPlayingWithVolumeHandler.bar_w vol
       <= OLEDNowPlayingWithVolumeHandler.bar_max_width)%Z /\
    (vol = 73%Z -> OLEDNowPlayingWithVolumeHandler.bar_w vol = 51%Z) /\
    (PlayingScreen._render_enabled s = true ->
     exists s',
       PlayingScreen._oled_update_coro text_width v c s = Ok s' /\
       PlayingScreen._current_volume s' = vol /\
       rendered_bar_width (PlayingScreen.display s') = Some w).
Proof.
  intros text_width v c s vol w.
  pose proof (get_volume_percent_range v) as Hr. fold vol in Hr.
  unfold w, PlayingScreen.bar_w, PlayingScreen.bar_max_width,
    OLEDNowPlayingWithVolumeHandler.bar_w,
    OLEDNowPlayingWithVolumeHandler.bar_max_width.
  rewrite !Z.quot_div_nonneg by lia.
  pose proof (Z.div_mod (90 * vol) 100 ltac:(lia)) as D1.
  pose proof (Z.mod_pos_bound (90 * vol) 100 ltac:(lia)) as M1.
  pose proof (Z.div_mod (70 * vol) 100 ltac:(lia)) as D2.
  pose proof (Z.mod_pos_bound (70 * vol) 100 ltac:(lia)) as M2.
  repeat split; try lia.
  intro R. unfold PlayingScreen._oled_update_coro.
  destruct (_draw_bar text_width c (PlayingScreen.advance vol s) R)
    as [s' [E Hb]].
  destruct (_draw_ok text_width c (PlayingScreen.advance vol s))
    as [s'' [E' [_ [_ [Hv _]]]]].
  rewrite E in E'. inversion E'; subst s''.
  exists s'. repeat split; [exact E | exact Hv |].
  rewrite Hb. simpl PlayingScreen._current_volume. unfold PlayingScreen.bar_w.
  now rewrite Z.quot_div_nonneg by lia.
Qed.

(** C6, as stated, fails on the Playing screen: with the volume source at
    73 the rectangle drawn is 65 wide, and 90 * 73 / 100 = 65.7 rounds
    to 66. *)
Lemma bar_at_73_is_not_rounded :
  get_volume_percent demo_volume = 73%Z /\
  round_half_even (PlayingScreen.bar_max_width * 73) 100 = 66%Z /\
  PlayingScreen.bar_w 73 = 65%Z /\
  exists s s',
    demo_screen = Ok s /\
    PlayingScreen._oled_update_coro demo_width demo_volume demo_clock s = Ok s' /\
    rendered_bar_width (PlayingScreen.display s') = Some 65%Z.
Proof.
  repeat split.
  do 2 eexists. repeat split; vm_compute; reflexivity.
Qed.

(* ================================================================== *)
(** * C7: the poller never fails *)
(* ================================================================== *)

Lemma check_output_raises_Exception : forall q e,
  check_output q = Raise e -> is_Exception e = true.
Proof.
  intros [rc [out|]| |] e H; simpl in H;
    try (inversion H; subst; reflexivity).
  destruct (rc =? 0)%Z; inversion H; subst; reflexivity.
Qed.

Lemma check_output_Ok : forall q out,
  check_output q = Ok out <-> q = Exited 0 (Some out).
Proof.
  intros [rc [o|]| |] out; simpl; split; intro H; try discriminate.
  - destruct (rc =? 0)%Z eqn:E; [|discriminate].
    apply Z.eqb_eq in E. inversion H; subst. reflexivity.
  - inversion H; subst. reflexivity.
Qed.

Lemma get_state_returns : forall q, exists s, get_state q = Ok s.
Proof.
  intro q. unfold get_state.
  destruct (check_output q) as [out|e] eqn:C; simpl.
  - destruct (contains playing_marker out); simpl; eauto.
  - unfold catch_Exception.
    rewrite (check_output_raises_Exception q e C). simpl. eauto.
Qed.

(** C7. Whatever the status query comes to (a timeout, a non-zero exit,
    output that is not text, a command that cannot be started, output
    without the marker), [get_state] returns a state and raises nothing.
    The state is Playing exactly when the command exits with 0 and
    ["[playing]"] occurs in its output, and Idle in every other case. *)
Theorem get_state_never_raises : forall q : process_outcome,
  exists s,
    get_state q = Ok s /\
    (s = STATE_PLAYING <->
     exists out, q = Exited 0 (Some out) /\ occurs playing_marker out) /\
    (s = STATE_IDLE <->
     ~ exists out, q = Exited 0 (Some out) /\ occurs playing_marker out).
Proof.
  intro q. unfold get_state.
  destruct (check_output q) as [out|e] eqn:C.
  - apply check_output_Ok in C. subst q. simpl.
    destruct (contains playing_marker out) eqn:P.
    + apply contains_occurs in P. exists STATE_PLAYING.
      split; [reflexivity|]. split.
      * split; [intros _; now exists out | reflexivity].
      * split; [discriminate|]. intro H. exfalso. apply H. now exists out.
    + apply contains_false in P. exists STATE_IDLE.
      split; [reflexivity|]. split.
      * split; [discriminate|]. intros [o [E Ho]].
        inversion E; subst. contradiction.
      * split; [|reflexivity]. intros _ [o [E Ho]].
        inversion E; subst. contradiction.
  - pose proof (check_output_raises_Exception q e C) as He.
    simpl. unfold catch_Exception. rewrite He. simpl.
    exists STATE_IDLE. split; [reflexivity|].
    assert (N : ~ exists out, q = Exited 0 (Some out) /\ occurs playing_marker out).
    { intros [o [E _]]. subst q. discriminate C. }
    split.
    + split; [discriminate | intro H; contradiction].
    + split; [intros _; exact N | reflexivity].
Qed.

(* ================================================================== *)
(** * C9: stopping the button watcher twice *)
(* ================================================================== *)

Lemma set_stop_idem : forall b,
  GPIOButton._stop b = true -> GPIOButton.set_stop b = b.
Proof. intros [] H; simpl in *; subst; reflexivity. Qed.

(** C9. [stop] never raises.  After it the stop flag is set and the line
    request is released, whatever the state before; a second [stop]
    returns without an error and changes nothing, and the sampling loop
    of a stopped button does nothing, so it calls the press action no
    more. *)
Theorem stop_twice_is_stop_once : forall b : GPIOButton.t,
  exists b1,
    GPIOButton.stop b = Ok b1 /\
    GPIOButton._stop b1 = true /\
    GPIOButton.released b1 = true /\
    GPIOButton.stop b1 = Ok b1 /\
    GPIOButton.presses b1 = GPIOButton.presses b /\
    (forall samples, GPIOButton._loop samples b1 = b1).
Proof.
  intro b. unfold GPIOButton.stop, GPIOButton.release.
  assert (L : forall b1 samples,
             GPIOButton._stop b1 = true -> GPIOButton._loop samples b1 = b1).
  { intros b1 [|[t v] rest] H; simpl; [reflexivity | now rewrite H]. }
  destruct b as [ln op db lp st rl ls ps]. destruct rl; simpl.
  - eexists. split; [reflexivity|]. repeat split. intro samples.
    now apply L.
  - eexists. split; [reflexivity|]. repeat split. intro samples.
    now apply L.
Qed.

(* ================================================================== *)
(** * C5: the refractory period of the button *)
(* ================================================================== *)

Lemma sample_ignores_debounce : forall now v a b,
  same_but_debounce a b ->
  same_but_debounce (GPIOButton.sample now v a) (GPIOButton.sample now v b).
Proof.
  intros now v [l1 o1 d1 p1 s1 r1 t1 q1] [l2 o2 d2 p2 s2 r2 t2 q2] H.
  unfold same_but_debounce in H. simpl in H.
  destruct H as [<- [<- [<- [<- [<- [<- <-]]]]]].
  unfold GPIOButton.sample, GPIOButton.get_value. simpl.
  destruct r1; simpl; [repeat split|].
  destruct v as [z|]; simpl; [|repeat split].
  destruct (GPIOButton.int_ne z t1); simpl; [|repeat split].
  destruct ((z =? 0)%Z && GPIOButton.eq_int t1 1); simpl; [|repeat split].
  destruct (Qgeb (now - p1) (5 # 100)); simpl; repeat split.
Qed.

(** The presses the loop accepts do not depend on the configured
    [debounce]. *)
Lemma _loop_ignores_debounce : forall samples a b,
  same_but_debounce a b ->
  same_but_debounce (GPIOButton._loop samples a) (GPIOButton._loop samples b).
Proof.
  induction samples as [|[now v] rest IH]; intros a b H; simpl; [exact H|].
  assert (Hs : GPIOButton._stop a = GPIOButton._stop b) by apply H.
  rewrite <- Hs. destruct (GPIOButton._stop a); [exact H|].
  apply IH. now apply sample_ignores_debounce.
Qed.

(** C5, on the code.  The button is built with the default [debounce] of
    0.1 s.  The line is pressed at 1.01 s, released, and pressed again at
    1.07 s: both presses are accepted, 0.06 s apart, less than the
    configured [debounce]; the loop compares with the literal 0.05. *)
Lemma press_accepted_inside_debounce :
  GPIOButton.debounce demo_button = (1 # 10)%Q /\
  GPIOButton.presses (GPIOButton._loop bounce_samples demo_button)
    = [(107 # 100)%Q; (101 # 100)%Q] /\
  ((107 # 100) - (101 # 100) < GPIOButton.debounce demo_button)%Q.
Proof.
  repeat split.
Qed.

(* ================================================================== *)
(** * C8: the time one poll can take *)
(* ================================================================== *)

Lemma Qgtb_true : forall a b, Qgtb a b = true <-> (b < a)%Q.
Proof.
  intros a b. unfold Qgtb. rewrite negb_true_iff.
  split.
  - intro H. apply Qnot_le_lt. intro L. apply Qle_bool_iff in L. congruence.
  - intro H. destruct (Qle_bool a b) eqn:E; [|reflexivity].
    apply Qle_bool_iff in E. exfalso. apply (Qlt_not_le _ _ H E).
Qed.

Lemma Qgtb_false : forall a b, Qgtb a b = false <-> (a <= b)%Q.
Proof.
  intros a b. unfold Qgtb. rewrite negb_false_iff. apply Qle_bool_iff.
Qed.

(** C8, as amended.  One poll of the reader waits for the stream at most
    [READ_TIMEOUT] = 3 s (the request itself is given 2 s).  That is
    longer than the 0.2 s interval of the Playing screen, fifteen of its
    ticks, so the iteration after a read that hangs starts no earlier than
    3 s after the hanging one started.  A poll that times out is an empty
    read and no error: the wait returns the empty string, the stored
    block and title stay, no title callback is made and the update
    callback runs as on every tick.  No poll lets an [Exception] out. *)
Theorem read_timeout_bounds_one_poll :
  forall (took : Q) (r : NowPlayingExtractHandler.stream_read)
         (h : NowPlayingExtractHandler.t),
    (snd (NowPlayingExtractHandler._read_metadata_async took r)
       <= NowPlayingExtractHandler.READ_TIMEOUT)%Q /\
    (forall e, fst (NowPlayingExtractHandler._read_metadata_async took r) = Raise e ->
               is_Exception e = false) /\
    ((NowPlayingExtractHandler.READ_TIMEOUT <= took)%Q ->
     NowPlayingExtractHandler._read_metadata_async took r
       = (Ok [], NowPlayingExtractHandler.READ_TIMEOUT) /\
     NowPlayingExtractHandler.poll_cycle [] h
       = (h, if NowPlayingExtractHandler.has_update_coro h
             then [NowPlayingExtractHandler.Update] else []) /\
     forall now next_t busy,
       (0 <= busy)%Q ->
       (now + NowPlayingExtractHandler.READ_TIMEOUT
          <= fst (NowPlayingExtractHandler.pace h now next_t
                    (NowPlayingExtractHandler.READ_TIMEOUT + busy)))%Q) /\
    (PlayingScreen.default_interval < NowPlayingExtractHandler.READ_TIMEOUT)%Q /\
    (NowPlayingExtractHandler.READ_TIMEOUT == 15 * PlayingScreen.default_interval)%Q /\
    (NowPlayingExtractHandler.REQUEST_TIMEOUT < NowPlayingExtractHandler.READ_TIMEOUT)%Q.
Proof.
  intros took r h. unfold NowPlayingExtractHandler._read_metadata_async,
    NowPlayingExtractHandler.wait_for_executor.
  split; [|split; [|split; [|split; [|split]]]].
  - destruct (Qgtb NowPlayingExtractHandler.READ_TIMEOUT took) eqn:G; simpl.
    + apply Qgtb_true in G. now apply Qlt_le_weak.
    + apply Qle_refl.
  - intros e. destruct (Qgtb NowPlayingExtractHandler.READ_TIMEOUT took);
      simpl; [|discriminate].
    unfold NowPlayingExtractHandler._read_metadata.
    destruct r as [e0| | | |m]; simpl; try discriminate.
    destruct e0; simpl; intro H; inversion H; subst; reflexivity.
  - intro Hlate. apply Qgtb_false in Hlate. rewrite Hlate.
    split; [reflexivity|]. split; [reflexivity|].
    intros now next_t busy Hb. unfold NowPlayingExtractHandler.pace.
    cbv zeta.
    destruct (Qgtb _ 0) eqn:G; simpl fst.
    + apply Qgtb_true in G. unfold NowPlayingExtractHandler.READ_TIMEOUT in *. lra.
    + unfold NowPlayingExtractHandler.READ_TIMEOUT in *. lra.
  - reflexivity.
  - reflexivity.
  - reflexivity.
Qed.

(** The same on a read that hangs for five seconds. *)
Lemma read_timeout_bounds_one_poll_witness :
  (NowPlayingExtractHandler.READ_TIMEOUT <= NowPlayingExtractHandler.took slow_cycle)%Q /\
  NowPlayingExtractHandler._read_metadata_async
    (NowPlayingExtractHandler.took slow_cycle)
    (NowPlayingExtractHandler.fetched slow_cycle)
  = (Ok [], NowPlayingExtractHandler.READ_TIMEOUT).
Proof.
  assert (H : (NowPlayingExtractHandler.READ_TIMEOUT
               <= NowPlayingExtractHandler.took slow_cycle)%Q) by discriminate.
  split; [exact H|].
  exact (proj1 (proj1 (proj2 (proj2 (read_timeout_bounds_one_poll
                                (NowPlayingExtractHandler.took slow_cycle)
                                (NowPlayingExtractHandler.fetched slow_cycle)
                                demo_reader))) H)).
Defined.

(** C8, as stated, fails: the timeout of a poll is not shorter than the
    poll interval of the Playing screen, and a read that hangs holds the
    next iteration back until 3 s, past the second tick at 0.4 s. *)
Lemma read_timeout_exceeds_interval :
  ~ (NowPlayingExtractHandler.READ_TIMEOUT
       < NowPlayingExtractHandler.interval demo_reader)%Q /\
  (exists h calls,
     NowPlayingExtractHandler._loop [slow_cycle; quick_cycle] 0 demo_reader
       = Ok (h, [(0%Q, [NowPlayingExtractHandler.Update]); (3%Q, calls)])) /\
  (0 + 2 * NowPlayingExtractHandler.interval demo_reader < 3)%Q.
Proof.
  split; [|split].
  - intro H. discriminate H.
  - do 2 eexists. vm_compute. reflexivity.
  - reflexivity.
Qed.

(* ================================================================== *)
(** * C1: at most one Playing-screen task *)
(* ================================================================== *)

(** Running the machine's monad: its operations are unfolded, the
    sequencing of the source stays. *)
Ltac unfold_machine :=
  unfold MoodeStateMachine.bindM, MoodeStateMachine.modify,
    MoodeStateMachine.get, MoodeStateMachine.lift, MoodeStateMachine.ret,
    MoodeStateMachine.raise, MoodeStateMachine.try_pass,
    MoodeStateMachine.wait_for, MoodeStateMachine.done.

Lemma turn_keeps_invariant : forall i m,
  task_invariant m ->
  let m' := snd (MoodeStateMachine.turn i m) in
  task_invariant m' /\
  ((MoodeStateMachine.created m < MoodeStateMachine.created m')%nat ->
   MoodeStateMachine.play_task m = None /\
   MoodeStateMachine.running m = [] /\
   MoodeStateMachine.running m' = [MoodeStateMachine.created m] /\
   MoodeStateMachine.play_task m' = Some (MoodeStateMachine.created m)) /\
  (MoodeStateMachine.state m = STATE_PLAYING ->
   MoodeStateMachine.state m' = STATE_IDLE ->
   MoodeStateMachine.play_task m' = None /\
   MoodeStateMachine.running m' = [] /\
   MoodeStateMachine.render_enabled m' = false /\
   forall k, MoodeStateMachine.play_task m = Some k ->
             In k (MoodeStateMachine.cancelled m')).
Proof.
  intros i m [Hrun Hpeak] m'. subst m'.
  unfold MoodeStateMachine.turn, MoodeStateMachine.poll_block,
    MoodeStateMachine._apply_state.
  unfold_machine.
  destruct (get_state_returns (MoodeStateMachine.status i)) as [ns Hns].
  rewrite Hns.
  destruct m as [st lp re pt bt iu rn cn cr pk]. simpl in *.
  destruct (Qgtb (MoodeStateMachine.now i - lp) POLL_INTERVAL);
    destruct Hrun as [-> | [k [-> ->]]]; simpl.
  all: unfold task_invariant.
  all: try (destruct (MoodeStateMachine.ended i k)); simpl.
  all: destruct ns, st; simpl.
  all: try (destruct pt as [t|]); simpl.
  all: try rewrite Nat.eqb_refl; simpl.
  all: try (destruct (MoodeStateMachine.joined i) as [[]|e]; simpl;
            try (destruct e; simpl)).
  all: destruct (MoodeStateMachine.interrupt i); simpl.
  all: repeat split; try lia; try discriminate; eauto 6; try (intros; lia).
  all: try (intros ? E; inversion E; subst; simpl; auto).
Qed.

Lemma turns_keep_invariant : forall l m,
  task_invariant m -> task_invariant (snd (MoodeStateMachine.turns l m)).
Proof.
  induction l as [|i rest IH]; intros m H; simpl; [exact H|].
  unfold MoodeStateMachine.bindM.
  pose proof (proj1 (turn_keeps_invariant i m H)) as H1. simpl in H1.
  destruct (MoodeStateMachine.turn i m) as [[u|e] m1]; simpl in *.
  - now apply IH.
  - exact H1.
Qed.

Lemma button_stop_returns : forall b, exists b1, GPIOButton.stop b = Ok b1.
Proof.
  intro b. unfold GPIOButton.stop, GPIOButton.release.
  destruct (GPIOButton.released (GPIOButton.set_stop b)); simpl; eauto.
Qed.

Lemma shutdown_keeps_invariant : forall m,
  task_invariant m -> task_invariant (snd (MoodeStateMachine.shutdown m)).
Proof.
  intros m H. unfold MoodeStateMachine.shutdown. unfold_machine.
  destruct m as [st lp re pt bt iu rn cn cr pk].
  destruct pt as [k|]; simpl;
    match goal with |- context [GPIOButton.stop ?b] =>
      destruct (button_stop_returns b) as [b1 ->] end; simpl; exact H.
Qed.

Lemma run_keeps_invariant : forall l m,
  task_invariant m -> task_invariant (snd (MoodeStateMachine.run l m)).
Proof.
  intros l m H. unfold MoodeStateMachine.run.
  pose proof (turns_keep_invariant l m H) as H1.
  destruct (MoodeStateMachine.turns l m) as [[u|e] m1]; simpl in *; [exact H1|].
  pose proof (shutdown_keeps_invariant m1 H1) as H2.
  destruct (MoodeStateMachine.shutdown m1) as [[u|e'] m2]; exact H2.
Qed.

Lemma __init___invariant : forall first pin,
  exists m0, MoodeStateMachine.__init__ first pin = Ok m0 /\
             task_invariant m0 /\
             MoodeStateMachine.play_task m0 = None /\
             MoodeStateMachine.running m0 = [].
Proof.
  intros first pin. unfold MoodeStateMachine.__init__.
  destruct (get_state_returns first) as [s ->].
  destruct s; simpl; eexists; (split; [reflexivity|]);
    unfold task_invariant; simpl; auto.
Qed.

Lemma task_invariant_count : forall m,
  task_invariant m ->
  (length (MoodeStateMachine.running m) <= 1)%nat /\
  (MoodeStateMachine.peak m <= 1)%nat.
Proof.
  intros m [[E | [k [E _]]] P]; rewrite E; simpl; auto.
Qed.

(** C1. Start the state machine on any first poll and let its main loop
    live through any sequence of turns: any poll results, any times, any
    outcome of the bounded wait for a cancelled task (its return, its
    cancellation, a timeout, an error of the task), tasks that end by
    themselves, an interruption.  At every moment, inside the loop and
    after the cleanup of [run], there are 0 or 1 Playing-screen tasks
    alive, and there never were two ([peak]).  In every turn a task is
    created only if no task handle was held and no task was alive; and a
    turn that takes the state from Playing to Idle has cancelled the task
    it held and awaited it, leaving no handle, no live task and the
    Playing screen disabled. *)
Theorem at_most_one_playing_task :
  forall (first : process_outcome) (pin : Z) (l : list MoodeStateMachine.tick),
  exists m0,
    MoodeStateMachine.__init__ first pin = Ok m0 /\
    (length (MoodeStateMachine.running (snd (MoodeStateMachine.run l m0))) <= 1)%nat /\
    (MoodeStateMachine.peak (snd (MoodeStateMachine.run l m0)) <= 1)%nat /\
    let m := snd (MoodeStateMachine.turns l m0) in
    (length (MoodeStateMachine.running m) <= 1)%nat /\
    (MoodeStateMachine.peak m <= 1)%nat /\
    forall i : MoodeStateMachine.tick,
      let m' := snd (MoodeStateMachine.turn i m) in
      ((MoodeStateMachine.created m < MoodeStateMachine.created m')%nat ->
       MoodeStateMachine.play_task m = None /\
       MoodeStateMachine.running m = [] /\
       MoodeStateMachine.running m' = [MoodeStateMachine.created m] /\
       MoodeStateMachine.play_task m' = Some (MoodeStateMachine.created m)) /\
      (MoodeStateMachine.state m = STATE_PLAYING ->
       MoodeStateMachine.state m' = STATE_IDLE ->
       MoodeStateMachine.play_task m' = None /\
       MoodeStateMachine.running m' = [] /\
       MoodeStateMachine.render_enabled m' = false /\
       forall k, MoodeStateMachine.play_task m = Some k ->
                 In k (MoodeStateMachine.cancelled m')).
Proof.
  intros first pin l.
  destruct (__init___invariant first pin) as [m0 [E [Hinv _]]].
  exists m0. split; [exact E|].
  pose proof (task_invariant_count _ (run_keeps_invariant l m0 Hinv)) as [R1 R2].
  pose proof (turns_keep_invariant l m0 Hinv) as Ht.
  pose proof (task_invariant_count _ Ht) as [T1 T2].
  repeat (split; [assumption|]).
  intro i. exact (proj2 (turn_keeps_invariant i _ Ht)).
Qed.

(* ================================================================== *)
(** * The code on small inputs *)
(* ================================================================== *)

Example extract_title_first_block :
  extract_title demo_block = Some (lit "Artist X - Song Y").
Proof. reflexivity. Qed.

Example extract_title_stops_at_quote_or_semicolon :
  extract_title (lit "x;StreamTitle=' A;B';StreamTitle='C';") = Some (lit "A").
Proof. reflexivity. Qed.

Example extract_title_skips_an_empty_tag :
  extract_title (lit "StreamTitle='';StreamTitle='Next';") = Some (lit "Next").
Proof. reflexivity. Qed.

Example extract_title_blank :
  extract_title (lit "StreamTitle='  ';") = Some [] /\
  or_empty (extract_title (lit "StreamTitle='  ';")) = [].
Proof. split; reflexivity. Qed.

Example extract_title_without_tag :
  extract_title demo_titleless_block = None.
Proof. reflexivity. Qed.

Example split_artist_title_dash :
  PlayingScreen.split_artist_title (lit "Artist X - Song Y")
    = [lit "Artist X"; lit "Song Y"].
Proof. reflexivity. Qed.

Example split_artist_title_priority :
  PlayingScreen.split_artist_title (lit "a - b_-_ c_-_d") = [lit "a - b"; lit "c_-_d"].
Proof. reflexivity. Qed.

Example split_artist_title_first_dash :
  PlayingScreen.split_artist_title (lit " a - b - c ") = [lit "a"; lit "b - c"].
Proof. reflexivity. Qed.

Example split_artist_title_plain :
  PlayingScreen.split_artist_title (lit "  Radio  ") = [lit "Radio"; []].
Proof. reflexivity. Qed.

(** The line held low over many samples is one press. *)
Example button_held_low_is_one_press :
  GPIOButton.presses
    (GPIOButton._loop
       [((100 # 100)%Q, Some 1%Z); ((101 # 100)%Q, Some 0%Z);
        ((102 # 100)%Q, Some 0%Z); ((150 # 100)%Q, Some 0%Z);
        ((300 # 100)%Q, Some 0%Z)]
       demo_button)
    = [(101 # 100)%Q].
Proof. reflexivity. Qed.

(** A second press 0.03 s after the first is dropped. *)
Example button_bounce_within_50ms :
  GPIOButton.presses
    (GPIOButton._loop
       [((100 # 100)%Q, Some 1%Z); ((101 # 100)%Q, Some 0%Z);
        ((102 # 100)%Q, Some 1%Z); ((104 # 100)%Q, Some 0%Z)]
       demo_button)
    = [(101 # 100)%Q].
Proof. reflexivity. Qed.

(** A press is accepted only on a sample of 0 after a stored 1, and only
    0.05 s or more after the last accepted press. *)
Lemma press_needs_falling_edge_and_50ms : forall now v b,
  GPIOButton.presses (GPIOButton.sample now v b) <> GPIOButton.presses b ->
  v = Some 0%Z /\
  GPIOButton._last_state b = GPIOButton.Int 1 /\
  (5 # 100 <= now - GPIOButton._last_press b)%Q /\
  GPIOButton.presses (GPIOButton.sample now v b) = now :: GPIOButton.presses b.
Proof.
  intros now v b H. unfold GPIOButton.sample, GPIOButton.get_value in *.
  destruct (GPIOButton.released b); simpl in *; [contradiction|].
  destruct v as [z|]; simpl in *; [|contradiction].
  destruct (GPIOButton.int_ne z (GPIOButton._last_state b)); simpl in *;
    [|contradiction].
  destruct (z =? 0)%Z eqn:Ez; simpl in *; [|contradiction].
  destruct (GPIOButton._last_state b) as [e|n] eqn:El; simpl in *;
    [contradiction|].
  destruct (n =? 1)%Z eqn:En; simpl in *; [|contradiction].
  destruct (Qgeb (now - GPIOButton._last_press b) (5 # 100)) eqn:Eq;
    simpl in *; [|contradiction].
  destruct (GPIOButton.on_press b); simpl in *; [|contradiction].
  apply Z.eqb_eq in Ez, En. subst. repeat split.
  now apply Qle_bool_iff.
Qed.

(** Playing, paused (the wait for the task times out), playing again,
    then a failing query: two tasks are created, one after the other. *)
Example machine_play_pause_play :
  exists m0 m,
    MoodeStateMachine.__init__ paused_status 1 = Ok m0 /\
    MoodeStateMachine.run
      [turn_at 1 playing_status (Ok tt);
       turn_at (12 # 10) playing_status (Ok tt);
       turn_at (15 # 10) paused_status (Raise TimeoutError);
       turn_at (18 # 10) playing_status (Ok tt);
       turn_at (21 # 10) TimedOut (Raise CancelledError)] m0 = (Ok tt, m) /\
    MoodeStateMachine.state m = STATE_IDLE /\
    MoodeStateMachine.created m = 2%nat /\
    MoodeStateMachine.cancelled m = [1%nat; 0%nat] /\
    MoodeStateMachine.running m = [] /\
    MoodeStateMachine.play_task m = None /\
    MoodeStateMachine.peak m = 1%nat /\
    MoodeStateMachine.idle_updates m = 2%nat.
Proof.
  do 2 eexists. split; [reflexivity|]. split; [vm_compute; reflexivity|].
  repeat split.
Qed.

(** An error of the awaited task leaves the loop; the cleanup stops the
    button. *)
Example machine_task_error_ends_run :
  exists m0 m,
    MoodeStateMachine.__init__ playing_status 1 = Ok m0 /\
    MoodeStateMachine.run
      [turn_at 1 playing_status (Ok tt);
       turn_at (15 # 10) paused_status (Raise OSError);
       turn_at (18 # 10) playing_status (Ok tt)] m0 = (Raise OSError, m) /\
    MoodeStateMachine.state m = STATE_PLAYING /\
    MoodeStateMachine.created m = 1%nat /\
    MoodeStateMachine.running m = [] /\
    GPIOButton._stop (MoodeStateMachine.button m) = true /\
    GPIOButton.released (MoodeStateMachine.button m) = true.
Proof.
  do 2 eexists. split; [reflexivity|]. split; [vm_compute; reflexivity|].
  repeat split.
Qed.

(** The bar at full volume: from x = 30 to x = 100 in [moode_display.py],
    90 wide on the Playing screen; at volume 0 it has no width. *)
Example bar_rectangle_at_full_volume :
  OLEDNowPlayingWithVolumeHandler.volume_bar 100 = rectangle 30 40 100 43 /\
  PlayingScreen.bar_w 100 = 90%Z /\
  PlayingScreen.bar_w 0 = 0%Z.
Proof. repeat split. Qed.

(* ================================================================== *)
(** * The button watcher: spacing, held lines, the first sample *)
(* ================================================================== *)

Lemma Qgeb_true : forall a b, Qgeb a b = true <-> (b <= a)%Q.
Proof. intros a b. unfold Qgeb. apply Qle_bool_iff. Qed.

(** What [sample] does to the fields, case by case. *)
Lemma sample_cases : forall now v b,
  let b' := GPIOButton.sample now v b in
  (b' = b) \/
  (exists z, v = Some z /\ GPIOButton.released b = false /\
             b' = GPIOButton.set_last_state (GPIOButton.Int z) b) \/
  (v = Some 0%Z /\ GPIOButton.released b = false /\
   GPIOButton._last_state b = GPIOButton.Int 1 /\
   (5 # 100 <= now - GPIOButton._last_press b)%Q /\
   b' = GPIOButton.set_last_state (GPIOButton.Int 0) (GPIOButton.accept now b)).
Proof.
  intros now v b. unfold GPIOButton.sample, GPIOButton.get_value. simpl.
  destruct (GPIOButton.released b) eqn:R; simpl; [now left|].
  destruct v as [z|]; simpl; [|now left].
  destruct (GPIOButton.int_ne z (GPIOButton._last_state b)) eqn:Ne; simpl;
    [|right; left; eauto].
  destruct (z =? 0)%Z eqn:Ez; simpl; [|right; left; eauto].
  destruct (GPIOButton.eq_int (GPIOButton._last_state b) 1) eqn:E1; simpl;
    [|right; left; eauto].
  destruct (Qgeb (now - GPIOButton._last_press b) (5 # 100)) eqn:G; simpl;
    [|right; left; eauto].
  right. right. apply Z.eqb_eq in Ez. subst z.
  destruct (GPIOButton._last_state b) as [e|n]; simpl in E1; [discriminate|].
  apply Z.eqb_eq in E1. subst n. apply Qgeb_true in G. repeat split; auto.
Qed.

Lemma sample_keeps_spacing : forall now v b,
  GPIOButton.on_press b = true ->
  presses_spaced b ->
  GPIOButton.on_press (GPIOButton.sample now v b) = true /\
  presses_spaced (GPIOButton.sample now v b).
Proof.
  intros now v b Hop [Hsp Hlast].
  destruct (sample_cases now v b) as [E | [[z [_ [_ E]]] | [_ [_ [_ [Hgap E]]]]]];
    rewrite E; clear E.
  - now repeat split.
  - now repeat split.
  - unfold presses_spaced. simpl. rewrite Hop. simpl. repeat split; auto.
    destruct (GPIOButton.presses b) as [|t r]; [exact I|].
    now rewrite <- Hlast.
Qed.

Lemma _loop_keeps_spacing : forall samples b,
  GPIOButton.on_press b = true ->
  presses_spaced b ->
  presses_spaced (GPIOButton._loop samples b).
Proof.
  induction samples as [|[now v] rest IH]; intros b Hop H; simpl; [exact H|].
  destruct (GPIOButton._stop b); [exact H|].
  destruct (sample_keeps_spacing now v b Hop H) as [Hop' H'].
  now apply IH.
Qed.

(** X1. Whatever the line does and whenever it is sampled, the presses a
    button with a press action reports lie at least 0.05 s apart: each is
    at least 0.05 s later than the one before it. *)
Theorem accepted_presses_are_50ms_apart :
  forall (line : Z) (debounce : Q) (initial : Z) (samples : list (Q * option Z)),
    spaced (5 # 100)
      (GPIOButton.presses
         (GPIOButton._loop samples (GPIOButton.__init__ line true debounce initial))).
Proof.
  intros line debounce initial samples.
  apply _loop_keeps_spacing; [reflexivity|].
  split; exact I.
Qed.

Lemma low_line_adds_no_press : forall samples b,
  GPIOButton._last_state b = GPIOButton.Int 0 ->
  held_low samples ->
  GPIOButton.presses (GPIOButton._loop samples b) = GPIOButton.presses b.
Proof.
  induction samples as [|[now v] rest IH]; intros b Hl Hs; simpl; [reflexivity|].
  destruct (GPIOButton._stop b); [reflexivity|].
  inversion Hs as [|x l Hv Hrest]; subst. simpl in Hv.
  destruct (sample_cases now v b) as [E | [[z [Ev [_ E]]] | [_ [_ [H1 _]]]]].
  - rewrite E. now apply IH.
  - rewrite E. destruct Hv as [Hv | Hv]; [|congruence].
    assert (z = 0%Z) by congruence. subst z.
    rewrite IH; [reflexivity | reflexivity | exact Hrest].
  - congruence.
Qed.

(** X2. A line that reads low on every sample (or fails to be read) is
    one press at most, however many samples are taken and whatever the
    state of the watcher before. *)
Theorem held_low_is_at_most_one_press :
  forall (samples : list (Q * option Z)) (b : GPIOButton.t),
    held_low samples ->
    (length (GPIOButton.presses (GPIOButton._loop samples b))
     <= S (length (GPIOButton.presses b)))%nat.
Proof.
  induction samples as [|[now v] rest IH]; intros b Hs; simpl; [lia|].
  destruct (GPIOButton._stop b); [lia|].
  inversion Hs as [|x l Hv Hrest]; subst. simpl in Hv.
  destruct (sample_cases now v b) as [E | [[z [Ev [_ E]]] | [_ [_ [_ [_ E]]]]]].
  - rewrite E. now apply IH.
  - rewrite E. destruct Hv as [Hv | Hv]; [|congruence].
    assert (z = 0%Z) by congruence. subst z.
    rewrite low_line_adds_no_press; [simpl; lia | reflexivity | exact Hrest].
  - rewrite E.
    rewrite low_line_adds_no_press; [|reflexivity | exact Hrest].
    simpl. destruct (GPIOButton.on_press b); simpl; lia.
Qed.

(** A line held low from 1.01 s on, sampled five times. *)
Lemma held_low_is_at_most_one_press_witness :
  held_low [((101 # 100)%Q, Some 0%Z); ((102 # 100)%Q, Some 0%Z);
            ((150 # 100)%Q, None); ((300 # 100)%Q, Some 0%Z)] /\
  (length (GPIOButton.presses
             (GPIOButton._loop
                [((101 # 100)%Q, Some 0%Z); ((102 # 100)%Q, Some 0%Z);
                 ((150 # 100)%Q, None); ((300 # 100)%Q, Some 0%Z)]
                (GPIOButton.sample 1 (Some 1%Z) demo_button)))
   <= S (length (GPIOButton.presses
                   (GPIOButton.sample 1 (Some 1%Z) demo_button))))%nat.
Proof.
  assert (H : held_low [((101 # 100)%Q, Some 0%Z); ((102 # 100)%Q, Some 0%Z);
                        ((150 # 100)%Q, None); ((300 # 100)%Q, Some 0%Z)]).
  { unfold held_low. repeat (apply Forall_cons; [simpl; auto|]). apply Forall_nil. }
  split; [exact H|].
  exact (held_low_is_at_most_one_press _
           (GPIOButton.sample 1 (Some 1%Z) demo_button) H).
Defined.

Lemma sample_adds_at_most_one : forall now v b,
  (length (GPIOButton.presses (GPIOButton.sample now v b))
   <= S (length (GPIOButton.presses b)))%nat.
Proof.
  intros now v b.
  destruct (sample_cases now v b) as [E | [[z [_ [_ E]]] | [_ [_ [_ [_ E]]]]]];
    rewrite E; simpl; try lia.
  destruct (GPIOButton.on_press b); simpl; lia.
Qed.

Lemma _loop_adds_at_most_one_each : forall samples b,
  (length (GPIOButton.presses (GPIOButton._loop samples b))
   <= length (GPIOButton.presses b) + length samples)%nat.
Proof.
  induction samples as [|[now v] rest IH]; intros b; simpl; [lia|].
  destruct (GPIOButton._stop b); [lia|].
  pose proof (IH (GPIOButton.sample now v b)).
  pose proof (sample_adds_at_most_one now v b). lia.
Qed.

(** X3. The first sample after construction is never a press, whatever
    the level read at construction and at that sample: the level kept
    from construction is the enumeration member, which is equal to no
    integer.  So a watcher reports fewer presses than it has taken
    samples. *)
Theorem first_sample_is_never_a_press :
  forall (line : Z) (on_press : bool) (debounce : Q) (initial : Z)
         (now : Q) (v : option Z) (rest : list (Q * option Z)),
    let b0 := GPIOButton.__init__ line on_press debounce initial in
    GPIOButton.presses (GPIOButton.sample now v b0) = [] /\
    (length (GPIOButton.presses (GPIOButton._loop ((now, v) :: rest) b0))
     <= length rest)%nat.
Proof.
  intros line on_press debounce initial now v rest b0.
  assert (H0 : GPIOButton.presses (GPIOButton.sample now v b0) = []).
  { destruct (sample_cases now v b0) as [E | [[z [_ [_ E]]] | [_ [_ [H1 _]]]]].
    - rewrite E. reflexivity.
    - rewrite E. reflexivity.
    - discriminate H1. }
  split; [exact H0|].
  simpl. pose proof (_loop_adds_at_most_one_each rest (GPIOButton.sample now v b0)).
  rewrite H0 in H. simpl in H. exact H.
Qed.

(* ================================================================== *)
(** * The press action *)
(* ================================================================== *)

(** X4. [toggle_play_pause] lets no [Exception] out, whatever becomes of
    [mpc toggle]; it prints nothing exactly when the command exits with
    0 and one line otherwise.  So the press action never stops the
    sampling loop from recording the level it read. *)
Theorem toggle_play_pause_never_raises : forall p : process_outcome,
  exists printed,
    toggle_play_pause p = Ok printed /\
    (printed = [] <-> exists out, p = Exited 0 (Some out)) /\
    (length printed <= 1)%nat.
Proof.
  intros [rc [out|]| |]; unfold toggle_play_pause; simpl.
  - destruct (rc =? 0)%Z eqn:E; simpl.
    + exists []. split; [reflexivity|]. split; [|simpl; lia].
      apply Z.eqb_eq in E. subst. split; [intros _; now exists out | reflexivity].
    + eexists. split; [reflexivity|]. split; [|simpl; lia].
      apply Z.eqb_neq in E. split; [discriminate|].
      intros [o H]. inversion H. contradiction.
  - eexists. split; [reflexivity|]. split; [|simpl; lia].
    split; [discriminate | intros [o H]; discriminate].
  - eexists. split; [reflexivity|]. split; [|simpl; lia].
    split; [discriminate | intros [o H]; discriminate].
  - eexists. split; [reflexivity|]. split; [|simpl; lia].
    split; [discriminate | intros [o H]; discriminate].
Qed.

(* ================================================================== *)
(** * [extract_title]: what the pattern picks *)
(* ================================================================== *)

Lemma take_while_split : forall p s,
  exists post,
    s = take_while p s ++ post /\
    Forall (fun c => p c = true) (take_while p s) /\
    (post = [] \/ exists c r, post = c :: r /\ p c = false).
Proof.
  intros p. induction s as [|c s [post [E [F St]]]]; simpl.
  - exists []. repeat split; auto.
  - destruct (p c) eqn:Pc.
    + exists post. repeat split; [simpl; now f_equal | now constructor | exact St].
    + exists (c :: s). repeat split; [constructor|]. right. eauto.
Qed.

Lemma title_char_false : forall c,
  title_char c = false <-> c = ord "'" \/ c = ord ";".
Proof.
  intro c. unfold title_char.
  destruct (N.eqb_spec c (ord "'")) as [E1|E1];
    destruct (N.eqb_spec c (ord ";")) as [E2|E2]; simpl; split; intro H;
    auto; try discriminate H; destruct H; contradiction.
Qed.

Lemma skipn_tag : forall r,
  skipn (length StreamTitle_tag) (StreamTitle_tag ++ r) = r.
Proof. intro r. reflexivity. Qed.

Lemma match_here_Some : forall s g,
  match_StreamTitle_here s = Some g ->
  exists post,
    s = StreamTitle_tag ++ g ++ post /\ g <> [] /\
    Forall (fun c => title_char c = true) g /\
    (post = [] \/ exists c r, post = c :: r /\ title_char c = false).
Proof.
  intros s g H. unfold match_StreamTitle_here in H.
  destruct (startswith StreamTitle_tag s) eqn:S0; [|discriminate].
  apply startswith_prefix in S0. destruct S0 as [r ->].
  rewrite skipn_tag in H.
  destruct (take_while_split title_char r) as [post [E [F St]]].
  destruct (take_while title_char r) as [|c g'] eqn:T; [discriminate|].
  inversion H; subst g. exists post. repeat split; auto.
  - now rewrite <- E.
  - discriminate.
Qed.

Lemma match_here_None : forall s,
  match_StreamTitle_here s = None ->
  forall c post, s = StreamTitle_tag ++ c :: post -> title_char c = false.
Proof.
  intros s H c post E. unfold match_StreamTitle_here in H.
  assert (S0 : startswith StreamTitle_tag s = true)
    by (apply startswith_prefix; eauto).
  rewrite S0 in H. subst s. rewrite skipn_tag in H. simpl in H.
  destruct (title_char c); [discriminate | reflexivity].
Qed.

Lemma search_Some : forall s g,
  search_StreamTitle s = Some g ->
  exists pre post,
    s = pre ++ StreamTitle_tag ++ g ++ post /\ g <> [] /\
    Forall (fun c => title_char c = true) g /\
    (post = [] \/ exists c r, post = c :: r /\ title_char c = false) /\
    no_title_before (length pre) s.
Proof.
  induction s as [|a s IH]; intros g H.
  - simpl in H. discriminate.
  - cbn [search_StreamTitle] in H.
    destruct (match_StreamTitle_here (a :: s)) as [g0|] eqn:M.
    + inversion H; subst g0.
      destruct (match_here_Some _ _ M) as [post [E [Hne [F St]]]].
      exists [], post. repeat split; auto.
      intros pre c p _ _. simpl. lia.
    + destruct (IH g H) as [pre [post [E [Hne [F [St Hmin]]]]]].
      exists (a :: pre), post. repeat split; auto.
      * simpl. now f_equal.
      * intros pre' c p E' Hc. destruct pre' as [|a' pre'].
        -- simpl in E'. pose proof (match_here_None _ M c p E'). congruence.
        -- simpl in E'. injection E' as _ E'. simpl.
           apply le_n_S. exact (Hmin pre' c p E' Hc).
Qed.

Lemma search_None : forall s,
  search_StreamTitle s = None ->
  forall pre c post,
    s = pre ++ StreamTitle_tag ++ c :: post -> title_char c = false.
Proof.
  induction s as [|a s IH]; intros H pre c post E.
  - destruct pre; discriminate E.
  - cbn [search_StreamTitle] in H.
    destruct (match_StreamTitle_here (a :: s)) as [g0|] eqn:M; [discriminate|].
    destruct pre as [|a' pre].
    + simpl in E. exact (match_here_None _ M c post E).
    + simpl in E. injection E as _ E. exact (IH H pre c post E).
Qed.

Lemma Forall_infix : forall (P : char -> Prop) l m r,
  Forall P (l ++ m ++ r) -> Forall P m.
Proof.
  intros P l m r H. apply Forall_app in H. destruct H as [_ H].
  apply Forall_app in H. tauto.
Qed.

(** X5. [extract_title] returns [None] exactly when no [StreamTitle='] in
    the block is followed by a character other than a quote and a
    semicolon.  Otherwise it takes the first such tag, reads on up to the
    next quote, semicolon or end of the block, and returns that run
    without its surrounding whitespace; the title contains neither a quote
    nor a semicolon. *)
Theorem extract_title_is_trimmed_first_run : forall m : str,
  match extract_title m with
  | None =>
      forall pre c post,
        m = pre ++ StreamTitle_tag ++ c :: post ->
        c = ord "'" \/ c = ord ";"
  | Some t =>
      exists pre g post,
        m = pre ++ StreamTitle_tag ++ g ++ post /\
        g <> [] /\
        (post = [] \/ exists c r, post = c :: r /\ (c = ord "'" \/ c = ord ";")) /\
        no_title_before (length pre) m /\
        t = strip g /\ trimmed g t /\
        Forall (fun c => c <> ord "'" /\ c <> ord ";") t
  end.
Proof.
  intro m. unfold extract_title.
  destruct (search_StreamTitle m) as [g|] eqn:S0.
  - destruct (search_Some _ _ S0) as [pre [post [E [Hne [F [St Hmin]]]]]].
    exists pre, g, post. repeat split; auto.
    + destruct St as [-> | [c [r [-> Hc]]]]; [now left|].
      right. exists c, r. split; [reflexivity|]. now apply title_char_false.
    + apply strip_trimmed.
    + apply strip_trimmed.
    + apply strip_trimmed.
    + destruct (strip_trimmed g) as [[l [r [Eg _]]] _].
      rewrite Eg in F. apply Forall_infix in F.
      eapply Forall_impl; [|exact F]. intros c Hc. simpl in Hc.
      split; intro Heq; subst c; discriminate Hc.
  - intros pre c post E. apply title_char_false.
    exact (search_None _ S0 pre c post E).
Qed.

(* ================================================================== *)
(** * The reader's loop: cadence and stored title *)
(* ================================================================== *)

Lemma poll_cycle_interval : forall meta h,
  NowPlayingExtractHandler.interval (fst (NowPlayingExtractHandler.poll_cycle meta h))
  = NowPlayingExtractHandler.interval h.
Proof.
  intros meta h. unfold NowPlayingExtractHandler.poll_cycle,
    NowPlayingExtractHandler.on_metadata.
  destruct (truthy meta); [|reflexivity].
  destruct (negb (eqb meta (NowPlayingExtractHandler._last_metadata h)));
    reflexivity.
Qed.

Lemma poll_cycle_title : forall meta h,
  NowPlayingExtractHandler.last_title h
    = or_empty (extract_title (NowPlayingExtractHandler._last_metadata h)) ->
  let h' := fst (NowPlayingExtractHandler.poll_cycle meta h) in
  NowPlayingExtractHandler.last_title h'
    = or_empty (extract_title (NowPlayingExtractHandler._last_metadata h')).
Proof.
  intros meta h H. unfold NowPlayingExtractHandler.poll_cycle,
    NowPlayingExtractHandler.on_metadata.
  destruct (truthy meta); [|exact H].
  destruct (negb (eqb meta (NowPlayingExtractHandler._last_metadata h)));
    [reflexivity | exact H].
Qed.

Lemma pace_not_before : forall h now next_t spent,
  (next_t <= fst (NowPlayingExtractHandler.pace h now next_t spent))%Q /\
  snd (NowPlayingExtractHandler.pace h now next_t spent)
  = (next_t + NowPlayingExtractHandler.interval h)%Q.
Proof.
  intros h now next_t spent. unfold NowPlayingExtractHandler.pace. cbv zeta.
  split; [|reflexivity]. simpl fst.
  destruct (Qgtb (next_t - (now + spent)) 0) eqn:G.
  - lra.
  - apply Qgtb_false in G. lra.
Qed.

(** One step of [_loop_from], when it goes on. *)
Lemma _loop_from_step : forall c rest now next_t h r log,
  NowPlayingExtractHandler._loop_from (c :: rest) now next_t h = Ok (r, log) ->
  (log = [] /\ r = h) \/
  exists meta waited log',
    NowPlayingExtractHandler._read_metadata_async
      (NowPlayingExtractHandler.took c) (NowPlayingExtractHandler.fetched c)
      = (Ok meta, waited) /\
    let h' := fst (NowPlayingExtractHandler.poll_cycle meta h) in
    let p := NowPlayingExtractHandler.pace h' now next_t
               (waited + NowPlayingExtractHandler.busy c)%Q in
    NowPlayingExtractHandler._loop_from rest (fst p) (snd p) h' = Ok (r, log') /\
    log = (now, snd (NowPlayingExtractHandler.poll_cycle meta h)) :: log'.
Proof.
  intros c rest now next_t h r log H. cbn [NowPlayingExtractHandler._loop_from] in H.
  destruct (NowPlayingExtractHandler._stop_event h);
    [inversion H; subst; now left|].
  destruct (NowPlayingExtractHandler._read_metadata_async _ _)
    as [[meta|e] waited] eqn:R.
  - right. exists meta, waited.
    destruct (NowPlayingExtractHandler.poll_cycle meta h) as [h' calls] eqn:P.
    destruct (NowPlayingExtractHandler.pace h' now next_t _) as [n1 n2] eqn:Pa.
    destruct (NowPlayingExtractHandler._loop_from rest n1 n2 h') as [[h'' log']|e'] eqn:L;
      simpl in H; [|discriminate].
    inversion H; subst. exists log'. cbv zeta. cbn [fst snd].
    rewrite Pa. cbn [fst snd]. auto.
  - destruct e; try discriminate H. inversion H; subst. now left.
Qed.

Lemma _loop_from_not_before : forall cs now next_t h r log,
  NowPlayingExtractHandler._loop_from cs now next_t h = Ok (r, log) ->
  match log with
  | [] => True
  | (t, _) :: rest =>
      t = now /\ not_before next_t (NowPlayingExtractHandler.interval h) rest
  end.
Proof.
  induction cs as [|c cs IH]; intros now next_t h r log H.
  - simpl in H. inversion H; subst. exact I.
  - destruct (_loop_from_step _ _ _ _ _ _ _ H)
      as [[-> _] | [meta [waited [log' [_ [Hrec ->]]]]]]; [exact I|].
    cbv zeta in Hrec. split; [reflexivity|].
    pose proof (IH _ _ _ _ _ Hrec) as Hl.
    destruct log' as [|[t calls] rest']; [exact I|].
    destruct Hl as [-> Hnb]. simpl.
    destruct (pace_not_before (fst (NowPlayingExtractHandler.poll_cycle meta h))
                now next_t (waited + NowPlayingExtractHandler.busy c)) as [Hge Hsnd].
    split; [exact Hge|].
    rewrite Hsnd, poll_cycle_interval in Hnb. exact Hnb.
Qed.

(** X6. The loop of the reader never runs ahead of its interval: if the
    first iteration starts at [now], the next starts at [now + interval]
    or later, the one after at [now + 2 interval] or later, and so on,
    whatever the reads and callbacks take. *)
Theorem reader_loop_never_runs_ahead :
  forall (cs : list NowPlayingExtractHandler.cycle) (now : Q)
         (h r : NowPlayingExtractHandler.t)
         (log : list (Q * list NowPlayingExtractHandler.call)),
    NowPlayingExtractHandler._loop cs now h = Ok (r, log) ->
    not_before now (NowPlayingExtractHandler.interval h) log.
Proof.
  intros cs now h r log H. unfold NowPlayingExtractHandler._loop in H.
  pose proof (_loop_from_not_before _ _ _ _ _ _ H) as Hl.
  destruct log as [|[t calls] rest]; [exact I|].
  destruct Hl as [-> Hnb]. simpl. split; [apply Qle_refl | exact Hnb].
Qed.

(** A read that hangs, then two quick ones. *)
Lemma reader_loop_never_runs_ahead_witness :
  exists r log,
    NowPlayingExtractHandler._loop [slow_cycle; quick_cycle; quick_cycle] 0 demo_reader
      = Ok (r, log) /\
    length log = 3%nat /\
    not_before 0 (NowPlayingExtractHandler.interval demo_reader) log.
Proof.
  destruct (NowPlayingExtractHandler._loop [slow_cycle; quick_cycle; quick_cycle]
              0 demo_reader) as [[r log]|e] eqn:E; [|discriminate E].
  exists r, log. split; [reflexivity|]. split.
  - vm_compute in E. injection E as _ <-. reflexivity.
  - exact (reader_loop_never_runs_ahead _ _ _ _ _ E).
Defined.

Lemma on_grid_Qeq : forall log t0 t0' step,
  (t0 == t0')%Q -> on_grid t0 step log -> on_grid t0' step log.
Proof.
  induction log as [|[t calls] rest IH]; intros t0 t0' step E H; simpl in *;
    [exact I|].
  destruct H as [Ht Hr]. split.
  - now rewrite <- E.
  - apply (IH (t0 + step)%Q); [now rewrite E | exact Hr].
Qed.






Lemma _loop_from_title : forall cs now next_t h r log,
  NowPlayingExtractHandler.last_title h
    = or_empty (extract_title (NowPlayingExtractHandler._last_metadata h)) ->
  NowPlayingExtractHandler._loop_from cs now next_t h = Ok (r, log) ->
  NowPlayingExtractHandler.last_title r
    = or_empty (extract_title (NowPlayingExtractHandler._last_metadata r)).
Proof.
  induction cs as [|c cs IH]; intros now next_t h r log Hinv H.
  - simpl in H. inversion H; subst. exact Hinv.
  - destruct (_loop_from_step _ _ _ _ _ _ _ H)
      as [[_ ->] | [meta [waited [log' [_ [Hrec _]]]]]]; [exact Hinv|].
    cbv zeta in Hrec. eapply IH; [|exact Hrec].
    now apply poll_cycle_title.
Qed.

(** X8. At every point of the reader's loop the stored title is the one
    extracted from the stored block (empty when the block has none): the
    two are never out of step. *)
Theorem reader_title_matches_stored_block :
  forall (interval : Q) (coro update_coro : bool)
         (cs : list NowPlayingExtractHandler.cycle) (now : Q)
         (r : NowPlayingExtractHandler.t)
         (log : list (Q * list NowPlayingExtractHandler.call)),
    NowPlayingExtractHandler._loop cs now
      (NowPlayingExtractHandler.__init__ interval coro update_coro) = Ok (r, log) ->
    NowPlayingExtractHandler.last_title r
      = or_empty (extract_title (NowPlayingExtractHandler._last_metadata r)).
Proof.
  intros interval coro update_coro cs now r log H.
  unfold NowPlayingExtractHandler._loop in H.
  eapply _loop_from_title; [|exact H]. reflexivity.
Qed.

(** After a read that hangs and a quick one the block is stored with its
    title. *)
Lemma reader_title_matches_stored_block_witness :
  exists r log,
    NowPlayingExtractHandler._loop [slow_cycle; quick_cycle] 0
      (NowPlayingExtractHandler.__init__ PlayingScreen.default_interval true true)
      = Ok (r, log) /\
    NowPlayingExtractHandler._last_metadata r = demo_block /\
    NowPlayingExtractHandler.last_title r
      = or_empty (extract_title (NowPlayingExtractHandler._last_metadata r)).
Proof.
  destruct (NowPlayingExtractHandler._loop [slow_cycle; quick_cycle] 0
              (NowPlayingExtractHandler.__init__ PlayingScreen.default_interval true true))
    as [[r log]|e] eqn:E; [|discriminate E].
  exists r, log. split; [reflexivity|]. split.
  - vm_compute in E. injection E as <- _. reflexivity.
  - exact (reader_title_matches_stored_block _ _ _ _ _ _ _ E).
Defined.

(* ================================================================== *)
(** * The Playing screen: scrolling *)
(* ================================================================== *)

(** X9. A line no wider than the display is drawn once, at the burn-in
    shift, whatever the offset.  A wider line is drawn twice, one wrap
    period ([text width + gap]) apart: the first copy starts at or left of
    the shift and less than a period left of it, the two copies reach past
    the right edge of the 128 columns, and the drawing is the same after
    any whole number of periods, so the scroll wraps without a jump. *)
Theorem scroll_text_wraps_seamlessly :
  forall (text_width : str -> Z) (s : PlayingScreen.t) (txt : str) (y off : Z),
    (0 <= PlayingScreen._scroll_gap s)%Z ->
    ((text_width txt <= 128)%Z ->
     PlayingScreen._scroll_text text_width s txt y off
     = [text (PlayingScreen.shift_x s) (y + PlayingScreen.shift_y s) txt font_big]) /\
    ((128 < text_width txt)%Z ->
     let total := (text_width txt + PlayingScreen._scroll_gap s)%Z in
     exists x,
       PlayingScreen._scroll_text text_width s txt y off
       = [text x (y + PlayingScreen.shift_y s) txt font_big;
          text (x + total) (y + PlayingScreen.shift_y s) txt font_big] /\
       (PlayingScreen.shift_x s - total < x <= PlayingScreen.shift_x s)%Z /\
       (PlayingScreen.shift_x s + 128 < x + total + text_width txt)%Z /\
       forall k,
         PlayingScreen._scroll_text text_width s txt y (off + k * total)
         = PlayingScreen._scroll_text text_width s txt y off).
Proof.
  intros tw s txt y off Hgap. unfold PlayingScreen._scroll_text. split.
  - intro Hw. apply Z.leb_le in Hw. now rewrite Hw.
  - intros Hw. cbv zeta.
    set (total := (tw txt + PlayingScreen._scroll_gap s)%Z).
    assert (Hleb : (tw txt <=? 128)%Z = false)
      by (apply Z.leb_gt; exact Hw).
    rewrite Hleb.
    assert (Ht : (0 < total)%Z) by (unfold total; lia).
    pose proof (Z.mod_pos_bound off total Ht) as Hm.
    exists (- (off mod total) + PlayingScreen.shift_x s)%Z.
    split; [reflexivity|]. split; [lia|]. split; [unfold total in *; lia|].
    intro k. rewrite Z.mod_add by lia. reflexivity.
Qed.

(** A title of forty characters on the screen as built. *)
Lemma scroll_text_wraps_seamlessly_witness :
  exists s,
    demo_screen = Ok s /\
    (0 <= PlayingScreen._scroll_gap s)%Z /\
    (128 < demo_width (lit "0123456789012345678901234567890123456789"))%Z /\
    PlayingScreen._scroll_text demo_width s
      (lit "0123456789012345678901234567890123456789") 0 (7 + 3 * 340)
    = PlayingScreen._scroll_text demo_width s
        (lit "0123456789012345678901234567890123456789") 0 7.
Proof.
  destruct demo_screen as [s|] eqn:E; [|discriminate E].
  exists s. split; [reflexivity|].
  assert (Hg : PlayingScreen._scroll_gap s = 20%Z)
    by (vm_compute in E; injection E as <-; reflexivity).
  assert (H0 : (0 <= PlayingScreen._scroll_gap s)%Z) by (rewrite Hg; lia).
  assert (Hw : (128 < demo_width (lit "0123456789012345678901234567890123456789"))%Z)
    by reflexivity.
  split; [exact H0|]. split; [exact Hw|].
  destruct (proj2 (scroll_text_wraps_seamlessly demo_width s
                     (lit "0123456789012345678901234567890123456789") 0 7 H0) Hw)
    as [x [_ [_ [_ Hper]]]].
  specialize (Hper 3%Z). rewrite Hg in Hper. exact Hper.
Defined.

(** X10. The scroll drawing of the state machine's Playing screen is that
    of [moode_display.py] moved by the burn-in shift. *)
Theorem scroll_text_is_the_display_variant_shifted :
  forall (text_width : str -> Z) (s : PlayingScreen.t) (txt : str) (y off : Z),
    PlayingScreen._scroll_text text_width s txt y off
    = map (translate (PlayingScreen.shift_x s) (PlayingScreen.shift_y s))
          (OLEDNowPlayingWithVolumeHandler._scroll_text text_width
             (PlayingScreen._scroll_gap s) txt y off).
Proof.
  intros tw s txt y off.
  unfold PlayingScreen._scroll_text, OLEDNowPlayingWithVolumeHandler._scroll_text.
  destruct (tw txt <=? 128)%Z; cbn [map translate].
  - reflexivity.
  - f_equal. f_equal. f_equal. lia.
Qed.

(* ================================================================== *)
(** * The Playing screen: what every cycle keeps *)
(* ================================================================== *)

Section PlayingScreenCycles.

Variable text_width : str -> Z.

(** A redraw: the content stays, the burn-in shift stays or moves one
    step, and a disabled screen is left as it is. *)
Lemma _draw_effect : forall c s,
  exists s',
    PlayingScreen._draw text_width c s = Ok s' /\
    same_content s s' /\
    PlayingScreen._scroll_gap s' = PlayingScreen._scroll_gap s /\
    ((PlayingScreen.shift_x s' = PlayingScreen.shift_x s /\
      PlayingScreen.shift_y s' = PlayingScreen.shift_y s) \/
     (PlayingScreen.shift_x s' = ((PlayingScreen.shift_x s + 1) mod 4)%Z /\
      PlayingScreen.shift_y s' = ((PlayingScreen.shift_y s + 1) mod 4)%Z)) /\
    (PlayingScreen._render_enabled s = false -> s' = s).
Proof.
  intros c s. unfold PlayingScreen._draw.
  destruct (PlayingScreen._render_enabled s) eqn:R; cbn [negb].
  - destruct (Qgeb (time_time c - PlayingScreen.last_shift s) 60);
      [ destruct (split_artist_title_pair (PlayingScreen._current_title
                   (PlayingScreen.set_shift ((PlayingScreen.shift_x s + 1) mod 4)
                      ((PlayingScreen.shift_y s + 1) mod 4) (time_time c) s)))
          as [a [b E]]
      | destruct (split_artist_title_pair (PlayingScreen._current_title s))
          as [a [b E]] ];
      rewrite E; cbn [unpack2 bind]; eexists; (split; [reflexivity|]);
      (split; [repeat split; simpl; auto|]);
      (split; [reflexivity|]); (split; [|discriminate]); simpl; auto.
  - exists s. split; [reflexivity|]. split; [apply same_content_refl|].
    split; [reflexivity|]. split; [now left | reflexivity].
Qed.

Lemma _draw_keeps : forall c s,
  display_invariant s ->
  exists s',
    PlayingScreen._draw text_width c s = Ok s' /\
    display_invariant s' /\
    PlayingScreen.base s' = PlayingScreen.base s /\
    PlayingScreen._render_enabled s' = PlayingScreen._render_enabled s /\
    (PlayingScreen._render_enabled s = false -> s' = s).
Proof.
  intros c s [Ht [Hv [Hx [Hy [Hsp [Hg [Ho Hos]]]]]]].
  destruct (_draw_effect c s)
    as [s' [E [[Hb [Ht' [Hv' [Ha' [Hs' [Hsp' Hr']]]]]] [Hg' [Hsh Hdis]]]]].
  exists s'. split; [exact E|]. split; [|auto].
  unfold display_invariant. rewrite Ht', Hv', Ha', Hs', Hsp', Hg'.
  repeat split; auto; try lia.
  - destruct Hsh as [[-> _] | [-> _]]; [lia|].
    apply Z.mod_pos_bound. lia.
  - destruct Hsh as [[-> _] | [-> _]]; [lia|].
    apply Z.mod_pos_bound. lia.
  - destruct Hsh as [[-> ->] | [-> ->]]; [exact Hy | now rewrite Hy].
Qed.

Lemma run_call_keeps : forall e c s,
  display_invariant s ->
  exists s',
    PlayingScreen.run_call text_width e c s = Ok s' /\
    display_invariant s' /\
    PlayingScreen.base s' = PlayingScreen.base s /\
    PlayingScreen._render_enabled s' = PlayingScreen._render_enabled s /\
    (PlayingScreen._render_enabled s = false ->
     PlayingScreen.display s' = PlayingScreen.display s).
Proof.
  intros e c s H. pose proof H as [Ht [Hv [Hx [Hy [Hsp [Hg [Ho Hos]]]]]]].
  destruct c as [title|]; simpl.
  - destruct title as [T|]; simpl; [|exists s; auto 6].
    destruct (truthy T && negb (eqb T (PlayingScreen._current_title s))) eqn:G;
      [|exists s; auto 6].
    apply andb_true_iff in G. destruct G as [G _]. apply truthy_true in G.
    assert (Hi : display_invariant (PlayingScreen.set_title T s))
      by (unfold display_invariant; simpl; repeat split; auto; lia).
    destruct (_draw_keeps (PlayingScreen.title_clock e) _ Hi)
      as [s' [E [Hi' [Hb [Hr Hdis]]]]].
    exists s'. split; [exact E|]. split; [exact Hi'|].
    split; [exact Hb|]. split; [exact Hr|].
    intro Hoff. rewrite (Hdis Hoff). reflexivity.
  - unfold PlayingScreen._oled_update_coro.
    assert (Hi : display_invariant
                   (PlayingScreen.advance (get_volume_percent (PlayingScreen.volume e)) s)).
    { unfold display_invariant; simpl.
      pose proof (get_volume_percent_range (PlayingScreen.volume e)).
      repeat split; auto; lia. }
    destruct (_draw_keeps (PlayingScreen.update_clock e) _ Hi)
      as [s' [E [Hi' [Hb [Hr Hdis]]]]].
    exists s'. split; [exact E|]. split; [exact Hi'|].
    split; [exact Hb|]. split; [exact Hr|].
    intro Hoff. rewrite (Hdis Hoff). reflexivity.
Qed.

Lemma run_calls_keep : forall e cs s,
  display_invariant s ->
  exists s',
    PlayingScreen.run_calls text_width e cs s = Ok s' /\
    display_invariant s' /\
    PlayingScreen.base s' = PlayingScreen.base s /\
    PlayingScreen._render_enabled s' = PlayingScreen._render_enabled s /\
    (PlayingScreen._render_enabled s = false ->
     PlayingScreen.display s' = PlayingScreen.display s).
Proof.
  intros e. induction cs as [|c cs IH]; intros s H; simpl.
  - exists s. auto.
  - destruct (run_call_keeps e c s H) as [s1 [E1 [H1 [B1 [R1 D1]]]]].
    rewrite E1. simpl.
    destruct (IH s1 H1) as [s2 [E2 [H2 [B2 [R2 D2]]]]].
    exists s2. split; [exact E2|]. split; [exact H2|].
    split; [congruence|]. split; [congruence|].
    intro Hoff. rewrite D2 by congruence. now apply D1.
Qed.

Lemma set_base_display_invariant : forall h s,
  display_invariant s -> display_invariant (PlayingScreen.set_base h s).
Proof. intros h s H. exact H. Qed.

Lemma poll_keeps : forall e meta s,
  screen_invariant s ->
  exists s',
    PlayingScreen.poll text_width e meta s = Ok s' /\
    screen_invariant s' /\
    NowPlayingExtractHandler._stop_event (PlayingScreen.base s')
    = NowPlayingExtractHandler._stop_event (PlayingScreen.base s).
Proof.
  intros e meta s [Ht [Hv [Hx [Hy [Hsp [Hg [Ho [Hos Hb]]]]]]]].
  unfold PlayingScreen.poll.
  pose proof (poll_cycle_title meta (PlayingScreen.base s) Hb) as Hb'.
  assert (Hst : NowPlayingExtractHandler._stop_event
                  (fst (NowPlayingExtractHandler.poll_cycle meta (PlayingScreen.base s)))
                = NowPlayingExtractHandler._stop_event (PlayingScreen.base s)).
  { unfold NowPlayingExtractHandler.poll_cycle, NowPlayingExtractHandler.on_metadata.
    destruct (truthy meta); [|reflexivity].
    destruct (negb (eqb meta _)); reflexivity. }
  destruct (NowPlayingExtractHandler.poll_cycle meta (PlayingScreen.base s))
    as [h calls]. simpl in Hb', Hst.
  assert (Hi : display_invariant (PlayingScreen.set_base h s))
    by (unfold display_invariant; simpl; repeat split; auto; lia).
  destruct (run_calls_keep e calls _ Hi) as [s' [E [Hi' [Hbase _]]]].
  exists s'. split; [exact E|]. simpl in Hbase. split.
  - destruct Hi' as [A1 [A2 [A3 [A4 [A5 [A6 [A7 A8]]]]]]].
    unfold screen_invariant. rewrite Hbase. repeat split; auto; lia.
  - now rewrite Hbase.
Qed.

Lemma _loop_keeps : forall cs s s',
  screen_invariant s ->
  PlayingScreen._loop text_width cs s = Ok s' ->
  screen_invariant s'.
Proof.
  induction cs as [|[c e] cs IH]; intros s s' H E; simpl in E.
  - inversion E; subst. exact H.
  - destruct (NowPlayingExtractHandler._stop_event (PlayingScreen.base s));
      [inversion E; subst; exact H|].
    destruct (NowPlayingExtractHandler._read_metadata_async _ _) as [[meta|err] w].
    + destruct (poll_keeps e meta s H) as [s1 [E1 [H1 _]]].
      rewrite E1 in E. simpl in E. exact (IH _ _ H1 E).
    + destruct err; try discriminate E. inversion E; subst. exact H.
Qed.

Lemma __init___keeps : forall interval contrast v c s,
  PlayingScreen.__init__ text_width interval contrast v c = Ok s ->
  screen_invariant s.
Proof.
  intros interval contrast v c s E. unfold PlayingScreen.__init__ in E.
  match type of E with PlayingScreen._draw _ _ ?s0 = _ =>
    assert (Hi : display_invariant s0) end.
  { unfold display_invariant; simpl.
    pose proof (get_volume_percent_range v).
    repeat split; auto; try lia. discriminate. }
  destruct (_draw_keeps c _ Hi) as [s' [E' [Hi' [Hb _]]]].
  rewrite E' in E. inversion E; subst s'.
  destruct Hi' as [A1 [A2 [A3 [A4 [A5 [A6 [A7 A8]]]]]]].
  unfold screen_invariant. rewrite Hb. simpl. repeat split; auto; lia.
Qed.

End PlayingScreenCycles.

Section PlayingScreenPolls.

Variable text_width : str -> Z.

Lemma run_call_returns : forall e c s,
  exists s',
    PlayingScreen.run_call text_width e c s = Ok s' /\
    PlayingScreen._render_enabled s' = PlayingScreen._render_enabled s /\
    (PlayingScreen._render_enabled s = false -> undrawn s s').
Proof.
  intros e c s. destruct c as [title|]; simpl.
  - destruct title as [T|]; simpl;
      [|exists s; repeat split; reflexivity].
    destruct (truthy T && negb (eqb T (PlayingScreen._current_title s)));
      [|exists s; repeat split; reflexivity].
    destruct (_draw_effect text_width (PlayingScreen.title_clock e)
                (PlayingScreen.set_title T s))
      as [s' [E [[_ [_ [_ [_ [_ [_ Hr]]]]]] [_ [_ Hdis]]]]].
    exists s'. split; [exact E|]. split; [exact Hr|].
    intro Hoff. rewrite (Hdis Hoff). repeat split.
  - unfold PlayingScreen._oled_update_coro.
    destruct (_draw_effect text_width (PlayingScreen.update_clock e)
                (PlayingScreen.advance (get_volume_percent (PlayingScreen.volume e)) s))
      as [s' [E [[_ [_ [_ [_ [_ [_ Hr]]]]]] [_ [_ Hdis]]]]].
    exists s'. split; [exact E|]. split; [exact Hr|].
    intro Hoff. rewrite (Hdis Hoff). repeat split.
Qed.

Lemma run_calls_return : forall e cs s,
  exists s',
    PlayingScreen.run_calls text_width e cs s = Ok s' /\
    PlayingScreen._render_enabled s' = PlayingScreen._render_enabled s /\
    (PlayingScreen._render_enabled s = false -> undrawn s s').
Proof.
  intros e. induction cs as [|c cs IH]; intros s; simpl.
  - exists s. repeat split; reflexivity.
  - destruct (run_call_returns e c s) as [s1 [E1 [R1 D1]]]. rewrite E1. simpl.
    destruct (IH s1) as [s2 [E2 [R2 D2]]].
    exists s2. split; [exact E2|]. split; [congruence|].
    intro Hoff. destruct (D1 Hoff) as [A1 [A2 [A3 A4]]].
    destruct (D2 ltac:(congruence)) as [B1 [B2 [B3 B4]]].
    unfold undrawn. repeat split; congruence.
Qed.


(** X12. While rendering is disabled a whole cycle sends nothing to the
    display and leaves the burn-in shift alone, whatever block arrives:
    a task that runs on after the switch to Idle cannot draw. *)
Theorem disabled_screen_draws_nothing :
  forall (e : PlayingScreen.tick) (meta : str) (s : PlayingScreen.t),
    PlayingScreen._render_enabled s = false ->
    exists s',
      PlayingScreen.poll text_width e meta s = Ok s' /\
      PlayingScreen._render_enabled s' = false /\
      PlayingScreen.display s' = PlayingScreen.display s /\
      PlayingScreen.shift_x s' = PlayingScreen.shift_x s /\
      PlayingScreen.shift_y s' = PlayingScreen.shift_y s.
Proof.
  intros e meta s Hoff. unfold PlayingScreen.poll.
  destruct (NowPlayingExtractHandler.poll_cycle meta (PlayingScreen.base s))
    as [h calls].
  destruct (run_calls_return e calls (PlayingScreen.set_base h s))
    as [s' [E [R D]]].
  destruct (D Hoff) as [D1 [D2 [D3 _]]].
  exists s'. split; [exact E|]. simpl in *. repeat split; congruence.
Qed.

End PlayingScreenPolls.

(** The screen as built, disabled, then given a titled block. *)
Lemma disabled_screen_draws_nothing_witness :
  exists s s',
    demo_screen = Ok s /\
    PlayingScreen.poll demo_width demo_tick demo_block
      (PlayingScreen.set_render_enabled false s) = Ok s' /\
    PlayingScreen._current_title s' = lit "Artist X - Song Y" /\
    PlayingScreen.display s' = PlayingScreen.display s.
Proof.
  destruct demo_screen as [s|] eqn:E; [|discriminate E].
  exists s.
  destruct (disabled_screen_draws_nothing demo_width demo_tick demo_block
              (PlayingScreen.set_render_enabled false s) eq_refl)
    as [s' [E' [_ [D _]]]].
  exists s'. split; [reflexivity|]. split; [exact E'|]. split; [|exact D].
  vm_compute in E. injection E as <-. vm_compute in E'. injection E' as <-.
  reflexivity.
Defined.

(* ================================================================== *)
(** * The Playing screen, from construction through its loop *)
(* ================================================================== *)

(** X13. From its construction on and through any cycles of its loop, the
    Playing screen has a non-empty title on display and a volume between
    0 and 100. *)
Theorem playing_screen_always_has_a_title :
  forall (text_width : str -> Z) (interval : Q) (contrast : Z)
         (v : volume_sources) (c : clock)
         (cs : list (NowPlayingExtractHandler.cycle * PlayingScreen.tick))
         (s0 s : PlayingScreen.t),
    PlayingScreen.__init__ text_width interval contrast v c = Ok s0 ->
    PlayingScreen._loop text_width cs s0 = Ok s ->
    PlayingScreen._current_title s <> [] /\
    (0 <= PlayingScreen._current_volume s <= 100)%Z.
Proof.
  intros tw interval contrast v c cs s0 s H0 H.
  pose proof (_loop_keeps tw cs s0 s (__init___keeps tw _ _ _ _ _ H0) H)
    as [A1 [A2 _]].
  split; assumption.
Qed.

Lemma playing_screen_always_has_a_title_witness :
  exists s0 s,
    demo_screen = Ok s0 /\
    PlayingScreen._loop demo_width demo_cycles s0 = Ok s /\
    PlayingScreen._current_title s <> [] /\
    (0 <= PlayingScreen._current_volume s <= 100)%Z.
Proof.
  destruct demo_screen as [s0|] eqn:E0; [|discriminate E0].
  destruct (PlayingScreen._loop demo_width demo_cycles s0) as [s|] eqn:E.
  - exists s0, s. split; [reflexivity|]. split; [exact E|].
    exact (playing_screen_always_has_a_title demo_width PlayingScreen.default_interval
             PlayingScreen.default_contrast demo_volume demo_clock
             demo_cycles s0 s E0 E).
  - exfalso. vm_compute in E0. injection E0 as <-. vm_compute in E. discriminate E.
Defined.

(** X14. From its construction on and through any cycles of its loop, the
    burn-in shift of the Playing screen stays within 0..3 and is the same
    in both directions. *)
Theorem burn_in_shift_stays_in_range :
  forall (text_width : str -> Z) (interval : Q) (contrast : Z)
         (v : volume_sources) (c : clock)
         (cs : list (NowPlayingExtractHandler.cycle * PlayingScreen.tick))
         (s0 s : PlayingScreen.t),
    PlayingScreen.__init__ text_width interval contrast v c = Ok s0 ->
    PlayingScreen._loop text_width cs s0 = Ok s ->
    (0 <= PlayingScreen.shift_x s < 4)%Z /\
    PlayingScreen.shift_y s = PlayingScreen.shift_x s.
Proof.
  intros tw interval contrast v c cs s0 s H0 H.
  pose proof (_loop_keeps tw cs s0 s (__init___keeps tw _ _ _ _ _ H0) H)
    as [_ [_ [A3 [A4 _]]]].
  split; assumption.
Qed.

Lemma burn_in_shift_stays_in_range_witness :
  exists s0 s,
    demo_screen = Ok s0 /\
    PlayingScreen._loop demo_width demo_cycles s0 = Ok s /\
    (0 <= PlayingScreen.shift_x s < 4)%Z /\
    PlayingScreen.shift_y s = PlayingScreen.shift_x s.
Proof.
  destruct demo_screen as [s0|] eqn:E0; [|discriminate E0].
  destruct (PlayingScreen._loop demo_width demo_cycles s0) as [s|] eqn:E.
  - exists s0, s. split; [reflexivity|]. split; [exact E|].
    exact (burn_in_shift_stays_in_range demo_width PlayingScreen.default_interval
             PlayingScreen.default_contrast demo_volume demo_clock
             demo_cycles s0 s E0 E).
  - exfalso. vm_compute in E0. injection E0 as <-. vm_compute in E. discriminate E.
Defined.

(** X15. From its construction on and through any cycles of its loop, the
    two scroll offsets of the Playing screen are equal and not negative,
    and the scroll step and gap stay 2 and 20. *)
Theorem scroll_offsets_move_together :
  forall (text_width : str -> Z) (interval : Q) (contrast : Z)
         (v : volume_sources) (c : clock)
         (cs : list (NowPlayingExtractHandler.cycle * PlayingScreen.tick))
         (s0 s : PlayingScreen.t),
    PlayingScreen.__init__ text_width interval contrast v c = Ok s0 ->
    PlayingScreen._loop text_width cs s0 = Ok s ->
    PlayingScreen._scroll_offset_song s = PlayingScreen._scroll_offset_artist s /\
    (0 <= PlayingScreen._scroll_offset_artist s)%Z /\
    PlayingScreen._scroll_speed s = 2%Z /\
    PlayingScreen._scroll_gap s = 20%Z.
Proof.
  intros tw interval contrast v c cs s0 s H0 H.
  pose proof (_loop_keeps tw cs s0 s (__init___keeps tw _ _ _ _ _ H0) H)
    as [_ [_ [_ [_ [A5 [A6 [A7 [A8 _]]]]]]]].
  repeat split; assumption.
Qed.

Lemma scroll_offsets_move_together_witness :
  exists s0 s,
    demo_screen = Ok s0 /\
    PlayingScreen._loop demo_width demo_cycles s0 = Ok s /\
    PlayingScreen._scroll_offset_song s = PlayingScreen._scroll_offset_artist s /\
    (0 <= PlayingScreen._scroll_offset_artist s)%Z /\
    PlayingScreen._scroll_speed s = 2%Z /\
    PlayingScreen._scroll_gap s = 20%Z.
Proof.
  destruct demo_screen as [s0|] eqn:E0; [|discriminate E0].
  destruct (PlayingScreen._loop demo_width demo_cycles s0) as [s|] eqn:E.
  - exists s0, s. split; [reflexivity|]. split; [exact E|].
    exact (scroll_offsets_move_together demo_width PlayingScreen.default_interval
             PlayingScreen.default_contrast demo_volume demo_clock
             demo_cycles s0 s E0 E).
  - exfalso. vm_compute in E0. injection E0 as <-. vm_compute in E. discriminate E.
Defined.

(* ================================================================== *)
(** * The Playing screen: a whole cycle on a block *)
(* ================================================================== *)

(** X16. A block that differs from the stored one and carries a non-empty
    title other than the one on display is shown within the same cycle:
    the cycle ends with that title on display, both offsets one scroll
    step from 0, the volume just read, and the block and title stored by
    the reader. *)
Theorem new_title_is_shown_from_the_start :
  forall (text_width : str -> Z) (e : PlayingScreen.tick) (B T : str)
         (s : PlayingScreen.t),
    NowPlayingExtractHandler.has_coro (PlayingScreen.base s) = true ->
    NowPlayingExtractHandler.has_update_coro (PlayingScreen.base s) = true ->
    B <> [] ->
    B <> NowPlayingExtractHandler._last_metadata (PlayingScreen.base s) ->
    extract_title B = Some T ->
    T <> [] ->
    T <> PlayingScreen._current_title s ->
    exists s',
      PlayingScreen.poll text_width e B s = Ok s' /\
      PlayingScreen._current_title s' = T /\
      PlayingScreen._scroll_offset_artist s' = PlayingScreen._scroll_speed s /\
      PlayingScreen._scroll_offset_song s' = PlayingScreen._scroll_speed s /\
      PlayingScreen._current_volume s' = get_volume_percent (PlayingScreen.volume e) /\
      NowPlayingExtractHandler._last_metadata (PlayingScreen.base s') = B /\
      NowPlayingExtractHandler.last_title (PlayingScreen.base s') = T.
Proof.
  intros tw e B T s Hc Hu Hne Hd Ht HT Hcur.
  unfold PlayingScreen.poll, NowPlayingExtractHandler.poll_cycle.
  rewrite (on_metadata_new B _ Hne Hd), Ht, Hc.
  assert (Hor : or_empty (Some T) = T).
  { simpl. apply truthy_true in HT. now rewrite HT. }
  rewrite Hor. cbn [NowPlayingExtractHandler.has_update_coro
                      NowPlayingExtractHandler.store]. rewrite Hu.
  cbn [app PlayingScreen.run_calls PlayingScreen.run_call
       PlayingScreen._oled_title_coro].
  set (s1 := PlayingScreen.set_base _ s).
  assert (G : truthy T && negb (eqb T (PlayingScreen._current_title s1)) = true).
  { apply truthy_true in HT. rewrite HT. simpl.
    apply negb_true_iff. now apply eqb_neq. }
  rewrite G.
  destruct (_draw_ok tw (PlayingScreen.title_clock e) (PlayingScreen.set_title T s1))
    as [s2 [E2 [B2 [T2 [V2 [A2 [S2 [P2 R2]]]]]]]].
  rewrite E2. cbn [bind]. unfold PlayingScreen._oled_update_coro.
  destruct (_draw_ok tw (PlayingScreen.update_clock e)
              (PlayingScreen.advance (get_volume_percent (PlayingScreen.volume e)) s2))
    as [s3 [E3 [B3 [T3 [V3 [A3 [S3 [P3 R3]]]]]]]].
  rewrite E3. cbn [bind PlayingScreen.run_calls].
  exists s3. split; [reflexivity|].
  simpl in *. rewrite T3, T2, A3, A2, S3, S2, V3, P2, B3, B2.
  repeat split; reflexivity.
Qed.

(** The first block of a stream on the screen as built. *)
Lemma new_title_is_shown_from_the_start_witness :
  exists s s',
    demo_screen = Ok s /\
    PlayingScreen.poll demo_width demo_tick demo_block s = Ok s' /\
    PlayingScreen._current_title s' = lit "Artist X - Song Y" /\
    PlayingScreen.split_artist_title (PlayingScreen._current_title s')
      = [lit "Artist X"; lit "Song Y"] /\
    PlayingScreen._scroll_offset_artist s' = 2%Z /\
    PlayingScreen._scroll_offset_song s' = 2%Z.
Proof.
  destruct demo_screen as [s|] eqn:E; [|discriminate E].
  exists s. vm_compute in E. injection E as Es.
  destruct (new_title_is_shown_from_the_start demo_width demo_tick demo_block
              (lit "Artist X - Song Y") s)
    as [s' [E' [H1 [H2 [H3 _]]]]];
    try (first [ reflexivity | discriminate
               | rewrite <- Es; first [reflexivity | discriminate] ]).
  exists s'. split; [reflexivity|]. split; [exact E'|].
  split; [exact H1|]. split; [rewrite H1; reflexivity|].
  rewrite H2, H3, <- Es. split; reflexivity.
Defined.

(** X17. A block equal to the stored one changes nothing but the scroll:
    the cycle leaves the title on display and the reader's state as they
    were and moves both offsets on by the scroll step. *)
Theorem repeated_block_keeps_scrolling :
  forall (text_width : str -> Z) (e : PlayingScreen.tick) (B : str)
         (s : PlayingScreen.t),
    NowPlayingExtractHandler.has_coro (PlayingScreen.base s) = true ->
    NowPlayingExtractHandler.has_update_coro (PlayingScreen.base s) = true ->
    B <> [] ->
    B = NowPlayingExtractHandler._last_metadata (PlayingScreen.base s) ->
    exists s',
      PlayingScreen.poll text_width e B s = Ok s' /\
      PlayingScreen._current_title s' = PlayingScreen._current_title s /\
      PlayingScreen._scroll_offset_artist s'
        = (PlayingScreen._scroll_offset_artist s + PlayingScreen._scroll_speed s)%Z /\
      PlayingScreen._scroll_offset_song s'
        = (PlayingScreen._scroll_offset_song s + PlayingScreen._scroll_speed s)%Z /\
      PlayingScreen.base s' = PlayingScreen.base s.
Proof.
  intros tw e B s Hc Hu Hne Heq.
  unfold PlayingScreen.poll, NowPlayingExtractHandler.poll_cycle.
  rewrite (on_metadata_same B _ Hne Heq), Hc, Hu.
  cbn [app PlayingScreen.run_calls PlayingScreen.run_call
       PlayingScreen._oled_title_coro bind].
  unfold PlayingScreen._oled_update_coro.
  set (s1 := PlayingScreen.set_base _ s).
  destruct (_draw_ok tw (PlayingScreen.update_clock e)
              (PlayingScreen.advance (get_volume_percent (PlayingScreen.volume e)) s1))
    as [s3 [E3 [B3 [T3 [V3 [A3 [S3 [P3 R3]]]]]]]].
  rewrite E3. cbn [bind PlayingScreen.run_calls].
  exists s3. split; [reflexivity|].
  simpl in *. rewrite T3, A3, S3, B3. repeat split; reflexivity.
Qed.

(** The same block twice. *)
Lemma repeated_block_keeps_scrolling_witness :
  exists s s1 s2,
    demo_screen = Ok s /\
    PlayingScreen.poll demo_width demo_tick demo_block s = Ok s1 /\
    PlayingScreen.poll demo_width demo_tick demo_block s1 = Ok s2 /\
    PlayingScreen._current_title s2 = PlayingScreen._current_title s1 /\
    PlayingScreen._scroll_offset_artist s2 = 4%Z.
Proof.
  destruct demo_screen as [s|] eqn:E; [|discriminate E].
  exists s. vm_compute in E. injection E as Es.
  destruct (PlayingScreen.poll demo_width demo_tick demo_block s) as [s1|] eqn:E1;
    [|exfalso; rewrite <- Es in E1; vm_compute in E1; discriminate E1].
  exists s1.
  assert (Es1 := E1). rewrite <- Es in Es1. vm_compute in Es1. injection Es1 as Es1.
  destruct (repeated_block_keeps_scrolling demo_width demo_tick demo_block s1)
    as [s2 [E2 [H1 [H2 _]]]];
    try (first [ reflexivity | discriminate
               | rewrite <- Es1; first [reflexivity | discriminate] ]).
  exists s2. split; [reflexivity|]. split; [reflexivity|]. split; [exact E2|].
  split; [exact H1|]. rewrite H2, <- Es1. reflexivity.
Defined.

(* ================================================================== *)
(** * The state machine: flag, handle, poll and cleanup *)
(* ================================================================== *)

Lemma turn_keeps_consistent : forall i m,
  machine_consistent m ->
  machine_consistent (snd (MoodeStateMachine.turn i m)) /\
  MoodeStateMachine.button (snd (MoodeStateMachine.turn i m))
  = MoodeStateMachine.button m.
Proof.
  intros i m [Hflag Hidle].
  unfold MoodeStateMachine.turn, MoodeStateMachine.poll_block,
    MoodeStateMachine._apply_state.
  unfold_machine.
  destruct (get_state_returns (MoodeStateMachine.status i)) as [ns Hns].
  rewrite Hns.
  destruct m as [st lp re pt bt iu rn cn cr pk]. simpl in *.
  unfold machine_consistent.
  destruct (Qgtb (MoodeStateMachine.now i - lp) POLL_INTERVAL); simpl.
  all: destruct ns, st; simpl.
  all: try (destruct pt as [t|]); simpl.
  all: try (destruct (MoodeStateMachine.joined i) as [[]|e]; simpl;
            try (destruct e; simpl)).
  all: destruct (MoodeStateMachine.interrupt i); simpl.
  all: repeat split; auto; try discriminate.
  all: try (intro; exfalso; discriminate (Hidle eq_refl)).
Qed.

Lemma turns_keep_consistent : forall l m,
  machine_consistent m ->
  machine_consistent (snd (MoodeStateMachine.turns l m)) /\
  MoodeStateMachine.button (snd (MoodeStateMachine.turns l m))
  = MoodeStateMachine.button m.
Proof.
  induction l as [|i rest IH]; intros m H; simpl; [split; [exact H | reflexivity]|].
  unfold MoodeStateMachine.bindM.
  destruct (turn_keeps_consistent i m H) as [H1 B1].
  destruct (MoodeStateMachine.turn i m) as [[u|e] m1]; simpl in *.
  - destruct (IH m1 H1) as [H2 B2]. split; [exact H2 | congruence].
  - split; [exact H1 | exact B1].
Qed.

(** The cleanup: the handle's task is asked to cancel, the button is
    stopped and its line released; state, flag and handle stay. *)
Lemma shutdown_effect : forall m,
  exists m',
    MoodeStateMachine.shutdown m = (Ok tt, m') /\
    MoodeStateMachine.state m' = MoodeStateMachine.state m /\
    MoodeStateMachine.render_enabled m' = MoodeStateMachine.render_enabled m /\
    MoodeStateMachine.play_task m' = MoodeStateMachine.play_task m /\
    MoodeStateMachine.running m' = MoodeStateMachine.running m /\
    GPIOButton._stop (MoodeStateMachine.button m') = true /\
    GPIOButton.released (MoodeStateMachine.button m') = true /\
    (forall k, MoodeStateMachine.play_task m = Some k ->
               In k (MoodeStateMachine.cancelled m')).
Proof.
  intro m. unfold MoodeStateMachine.shutdown. unfold_machine.
  destruct m as [st lp re pt bt iu rn cn cr pk].
  assert (Hb : forall b, exists b1,
             GPIOButton.stop b = Ok b1 /\ GPIOButton._stop b1 = true /\
             GPIOButton.released b1 = true).
  { intro b. unfold GPIOButton.stop, GPIOButton.release.
    destruct b as [a1 a2 a3 a4 a5 rl a7 a8]. destruct rl; simpl; eauto. }
  destruct pt as [k|]; simpl; destruct (Hb bt) as [b1 [-> [S1 R1]]]; simpl;
    eexists; (split; [reflexivity|]); simpl; repeat split; auto.
  - intros k' E. inversion E; subst. now left.
  - discriminate.
Qed.

Lemma __init___consistent : forall first pin,
  exists m0, MoodeStateMachine.__init__ first pin = Ok m0 /\
             machine_consistent m0 /\ task_invariant m0.
Proof.
  intros first pin. unfold MoodeStateMachine.__init__.
  destruct (get_state_returns first) as [s ->].
  destruct s; simpl; eexists; (split; [reflexivity|]);
    unfold machine_consistent, task_invariant; simpl; auto.
Qed.

Lemma run_keeps_consistent : forall l m,
  machine_consistent m ->
  machine_consistent (snd (MoodeStateMachine.run l m)).
Proof.
  intros l m H. unfold MoodeStateMachine.run.
  destruct (turns_keep_consistent l m H) as [H1 _].
  destruct (MoodeStateMachine.turns l m) as [[u|e] m1]; simpl in *; [exact H1|].
  destruct (shutdown_effect m1) as [m2 [-> [S1 [S2 [S3 _]]]]]. simpl.
  destruct H1 as [A B]. split; [congruence|].
  intro Hi. rewrite S3. apply B. congruence.
Qed.

(** X18. In every state the machine reaches, inside its loop or after
    the cleanup, the Playing screen may render exactly when the state is
    Playing. *)
Theorem playing_screen_renders_exactly_while_playing :
  forall (first : process_outcome) (pin : Z) (l : list MoodeStateMachine.tick),
  exists m0,
    MoodeStateMachine.__init__ first pin = Ok m0 /\
    MoodeStateMachine.render_enabled (snd (MoodeStateMachine.turns l m0))
    = PlayerState_eqb (MoodeStateMachine.state (snd (MoodeStateMachine.turns l m0)))
                      STATE_PLAYING /\
    MoodeStateMachine.render_enabled (snd (MoodeStateMachine.run l m0))
    = PlayerState_eqb (MoodeStateMachine.state (snd (MoodeStateMachine.run l m0)))
                      STATE_PLAYING.
Proof.
  intros first pin l.
  destruct (__init___consistent first pin) as [m0 [E [Hc _]]].
  exists m0. split; [exact E|]. split.
  - apply (turns_keep_consistent l m0 Hc).
  - apply (run_keeps_consistent l m0 Hc).
Qed.

(** X19. In every state the machine reaches, inside its loop or after
    the cleanup, the Idle state holds no task handle and no Playing-screen
    task is alive. *)
Theorem idle_state_holds_no_task :
  forall (first : process_outcome) (pin : Z) (l : list MoodeStateMachine.tick),
  exists m0,
    MoodeStateMachine.__init__ first pin = Ok m0 /\
    (MoodeStateMachine.state (snd (MoodeStateMachine.turns l m0)) = STATE_IDLE ->
     MoodeStateMachine.play_task (snd (MoodeStateMachine.turns l m0)) = None /\
     MoodeStateMachine.running (snd (MoodeStateMachine.turns l m0)) = []) /\
    (MoodeStateMachine.state (snd (MoodeStateMachine.run l m0)) = STATE_IDLE ->
     MoodeStateMachine.play_task (snd (MoodeStateMachine.run l m0)) = None /\
     MoodeStateMachine.running (snd (MoodeStateMachine.run l m0)) = []).
Proof.
  intros first pin l.
  destruct (__init___consistent first pin) as [m0 [E [Hc Ht]]].
  exists m0. split; [exact E|].
  assert (G : forall m, machine_consistent m -> task_invariant m ->
              MoodeStateMachine.state m = STATE_IDLE ->
              MoodeStateMachine.play_task m = None /\
              MoodeStateMachine.running m = []).
  { intros m [_ Hi] [[Hr | [k [_ Hk]]] _] Hs.
    - split; [now apply Hi | exact Hr].
    - rewrite (Hi Hs) in Hk. discriminate. }
  split; intro Hs.
  - apply G; [apply (turns_keep_consistent l m0 Hc)
             | apply (turns_keep_invariant l m0 Ht) | exact Hs].
  - apply G; [apply (run_keeps_consistent l m0 Hc)
             | apply (run_keeps_invariant l m0 Ht) | exact Hs].
Qed.

(** X20. The machine changes its state only by polling.  A turn taken
    0.2 s or less after the last poll leaves state, flag, handle and the
    number of tasks created as they were.  A turn that polls and comes
    back without an exception ends in the state the poller returned, with
    the time of the poll recorded; and if that state is Playing it holds a
    task handle. *)
Theorem state_follows_the_poller :
  forall (i : MoodeStateMachine.tick) (m : MoodeStateMachine.t),
    let r := MoodeStateMachine.turn i m in
    (Qgtb (MoodeStateMachine.now i - MoodeStateMachine.last_poll m) POLL_INTERVAL = false ->
     MoodeStateMachine.state (snd r) = MoodeStateMachine.state m /\
     MoodeStateMachine.render_enabled (snd r) = MoodeStateMachine.render_enabled m /\
     MoodeStateMachine.play_task (snd r) = MoodeStateMachine.play_task m /\
     MoodeStateMachine.created (snd r) = MoodeStateMachine.created m /\
     MoodeStateMachine.last_poll (snd r) = MoodeStateMachine.last_poll m) /\
    (Qgtb (MoodeStateMachine.now i - MoodeStateMachine.last_poll m) POLL_INTERVAL = true ->
     fst r = Ok tt ->
     get_state (MoodeStateMachine.status i) = Ok (MoodeStateMachine.state (snd r)) /\
     MoodeStateMachine.last_poll (snd r) = MoodeStateMachine.now i /\
     (MoodeStateMachine.state (snd r) = STATE_PLAYING ->
      MoodeStateMachine.play_task (snd r) <> None)).
Proof.
  intros i m r. subst r.
  unfold MoodeStateMachine.turn, MoodeStateMachine.poll_block,
    MoodeStateMachine._apply_state.
  unfold_machine.
  destruct (get_state_returns (MoodeStateMachine.status i)) as [ns Hns].
  rewrite Hns.
  destruct m as [st lp re pt bt iu rn cn cr pk]. simpl.
  split; intro G; rewrite G; simpl.
  - destruct st; simpl; destruct (MoodeStateMachine.interrupt i); simpl;
      repeat split.
  - destruct ns, st; simpl.
    all: try (destruct pt as [t|]); simpl.
    all: try (destruct (MoodeStateMachine.joined i) as [[]|e]; simpl;
              try (destruct e; simpl)).
    all: destruct (MoodeStateMachine.interrupt i); simpl.
    all: intro H; try discriminate H.
    all: repeat split; try discriminate.
Qed.

Lemma turn_keeps_button : forall i m,
  MoodeStateMachine.button (snd (MoodeStateMachine.turn i m))
  = MoodeStateMachine.button m.
Proof.
  intros i m.
  unfold MoodeStateMachine.turn, MoodeStateMachine.poll_block,
    MoodeStateMachine._apply_state.
  unfold_machine.
  destruct (get_state_returns (MoodeStateMachine.status i)) as [ns Hns].
  rewrite Hns.
  destruct m as [st lp re pt bt iu rn cn cr pk]. simpl.
  destruct (Qgtb (MoodeStateMachine.now i - lp) POLL_INTERVAL); simpl.
  all: destruct ns, st; simpl.
  all: try (destruct pt as [t|]); simpl.
  all: try (destruct (MoodeStateMachine.joined i) as [[]|e]; simpl;
            try (destruct e; simpl)).
  all: destruct (MoodeStateMachine.interrupt i); reflexivity.
Qed.

Lemma turns_keep_button : forall l m,
  MoodeStateMachine.button (snd (MoodeStateMachine.turns l m))
  = MoodeStateMachine.button m.
Proof.
  induction l as [|i rest IH]; intros m; simpl; [reflexivity|].
  unfold MoodeStateMachine.bindM.
  pose proof (turn_keeps_button i m) as B1.
  destruct (MoodeStateMachine.turn i m) as [[u|e] m1]; simpl in *.
  - rewrite IH. exact B1.
  - exact B1.
Qed.

Lemma run_raises_after_cleanup : forall l m e m',
  MoodeStateMachine.run l m = (Raise e, m') ->
  exists m1,
    MoodeStateMachine.turns l m = (Raise e, m1) /\
    MoodeStateMachine.shutdown m1 = (Ok tt, m').
Proof.
  intros l m e m' H. unfold MoodeStateMachine.run in H.
  destruct (MoodeStateMachine.turns l m) as [[u|e1] m1]; [discriminate H|].
  destruct (shutdown_effect m1) as [m2 [Hs _]]. rewrite Hs in H.
  inversion H; subst. exists m1. split; [reflexivity | exact Hs].
Qed.

(** X21. When an exception ends [run], the cleanup has run first: the
    task the machine held has been asked to cancel, the button watcher is
    stopped and its line released, and the exception that leaves [run] is
    the one that ended the loop.  As long as the loop goes on the button
    is not touched. *)
Theorem run_cleans_up_on_any_exit :
  forall (l : list MoodeStateMachine.tick) (m m' : MoodeStateMachine.t)
         (r : result unit),
    MoodeStateMachine.run l m = (r, m') ->
    match r with
    | Raise e =>
        fst (MoodeStateMachine.turns l m) = Raise e /\
        GPIOButton._stop (MoodeStateMachine.button m') = true /\
        GPIOButton.released (MoodeStateMachine.button m') = true /\
        (forall k, MoodeStateMachine.play_task m' = Some k ->
                   In k (MoodeStateMachine.cancelled m'))
    | Ok _ => MoodeStateMachine.button m' = MoodeStateMachine.button m
    end.
Proof.
  intros l m m' r H. destruct r as [u|e].
  - unfold MoodeStateMachine.run in H.
    pose proof (turns_keep_button l m) as Hb.
    destruct (MoodeStateMachine.turns l m) as [[u1|e1] m1]; simpl in *.
    + inversion H; subst. exact Hb.
    + destruct (shutdown_effect m1) as [m2 [Hs _]]. rewrite Hs in H.
      discriminate H.
  - destruct (run_raises_after_cleanup _ _ _ _ H) as [m1 [Ht Hs]].
    rewrite Ht. simpl.
    destruct (shutdown_effect m1) as [m2 [Hs' [_ [_ [Hp [_ [S1 [R1 Hk]]]]]]]].
    rewrite Hs in Hs'. inversion Hs'; subst m2.
    repeat split; auto. intros k Hk'. apply Hk. congruence.
Qed.

(** The awaited task fails with an error: [run] ends with it, cleaned
    up. *)
Lemma run_cleans_up_on_any_exit_witness :
  exists m0 m',
    MoodeStateMachine.__init__ playing_status 1 = Ok m0 /\
    MoodeStateMachine.run
      [turn_at 1 playing_status (Ok tt);
       turn_at (15 # 10) paused_status (Raise OSError)] m0 = (Raise OSError, m') /\
    GPIOButton._stop (MoodeStateMachine.button m') = true /\
    GPIOButton.released (MoodeStateMachine.button m') = true /\
    MoodeStateMachine.cancelled m' = [0%nat; 0%nat].
Proof.
  destruct (MoodeStateMachine.__init__ playing_status 1) as [m0|] eqn:E0;
    [|discriminate E0].
  destruct (MoodeStateMachine.run
              [turn_at 1 playing_status (Ok tt);
               turn_at (15 # 10) paused_status (Raise OSError)] m0)
    as [r m'] eqn:E.
  pose proof (run_cleans_up_on_any_exit _ _ _ _ E) as H.
  vm_compute in E0. injection E0 as <-.
  vm_compute in E. injection E as <- <-.
  eexists. eexists. split; [reflexivity|].
  split; [vm_compute; reflexivity|].
  destruct H as [_ [S1 [R1 _]]].
  split; [exact S1|]. split; [exact R1 | reflexivity].
Defined.

(* ================================================================== *)
(** * The Idle screen *)
(* ================================================================== *)

Lemma format_02d_two_digits : forall n,
  (n < 100)%N -> length (IdleScreen.format_02d n) = 2%nat.
Proof.
  intros n H. rewrite <- (N2Nat.id n).
  assert (Hk : (N.to_nat n < 100)%nat) by lia.
  remember (N.to_nat n) as k eqn:Ek. clear Ek H n.
  do 100 (destruct k as [|k]; [vm_compute; reflexivity|]).
  lia.
Qed.

Section IdleScreenFacts.

Variable textbbox_right : font -> str -> Z.

(** X22. A redraw of the Idle screen sets the contrast and draws one
    frame of two texts: the time on row 12, as two digits, a colon or a
    space, two digits (five characters for an hour below 24 and a minute
    below 60), and the date on row 50.  Each is centred: the margin left
    of it and the margin right of it on the 128 columns differ by one
    column at most.  The burn-in shift the screen keeps is not applied to
    the drawing. *)
Theorem idle_clock_is_centred :
  forall (c : IdleScreen.wall_clock) (s : IdleScreen.t),
  exists x dx sep,
    IdleScreen.display (IdleScreen._draw textbbox_right c s)
    = idle_frame x dx
        (IdleScreen.format_02d (IdleScreen.tm_hour c) ++ sep
         ++ IdleScreen.format_02d (IdleScreen.tm_min c))
        (IdleScreen.datestr c)
      :: contrast (IdleScreen.contrast_level s) :: IdleScreen.display s /\
    (sep = lit ":" \/ sep = lit " ") /\
    (let w := textbbox_right font_big
                (IdleScreen.format_02d (IdleScreen.tm_hour c) ++ sep
                 ++ IdleScreen.format_02d (IdleScreen.tm_min c)) in
     0 <= (128 - (x + w)) - x <= 1)%Z /\
    (let dw := textbbox_right font_small (IdleScreen.datestr c) in
     0 <= (128 - (dx + dw)) - dx <= 1)%Z /\
    ((IdleScreen.tm_hour c < 24)%N -> (IdleScreen.tm_min c < 60)%N ->
     length (IdleScreen.format_02d (IdleScreen.tm_hour c) ++ sep
             ++ IdleScreen.format_02d (IdleScreen.tm_min c)) = 5%nat).
Proof.
  intros c s. unfold IdleScreen._draw. cbv zeta.
  set (s1 := IdleScreen.send _ s).
  set (s2 := if Qgeb (IdleScreen.time_time c - IdleScreen.last_blink s1) 1
             then _ else s1).
  set (s3 := if Qgeb (IdleScreen.time_time c - IdleScreen.last_shift s2) 60
             then _ else s2).
  assert (Hd : IdleScreen.display s3
               = contrast (IdleScreen.contrast_level s) :: IdleScreen.display s).
  { unfold s3, s2. destruct (Qgeb _ 60); destruct (Qgeb _ 1); reflexivity. }
  assert (Hb : IdleScreen.blink s3 = IdleScreen.blink s2).
  { unfold s3. destruct (Qgeb _ 60); reflexivity. }
  unfold IdleScreen.timestr. rewrite Hb.
  set (sep := if IdleScreen.blink s2 then lit ":" else lit " ").
  set (t := (IdleScreen.format_02d (IdleScreen.tm_hour c) ++ sep
             ++ IdleScreen.format_02d (IdleScreen.tm_min c))).
  exists ((128 - textbbox_right font_big t) / 2)%Z,
         ((128 - textbbox_right font_small (IdleScreen.datestr c)) / 2)%Z, sep.
  split; [|split; [|split; [|split]]].
  - simpl. rewrite Hd. reflexivity.
  - unfold sep. destruct (IdleScreen.blink s2); auto.
  - cbv zeta. fold t.
    pose proof (Z.div_mod (128 - textbbox_right font_big t) 2 ltac:(lia)).
    pose proof (Z.mod_pos_bound (128 - textbbox_right font_big t) 2 ltac:(lia)).
    lia.
  - cbv zeta.
    pose proof (Z.div_mod (128 - textbbox_right font_small (IdleScreen.datestr c)) 2
                  ltac:(lia)).
    pose proof (Z.mod_pos_bound
                  (128 - textbbox_right font_small (IdleScreen.datestr c)) 2 ltac:(lia)).
    lia.
  - intros Hh Hm. fold t. unfold t. rewrite !length_app.
    rewrite (format_02d_two_digits (IdleScreen.tm_hour c)) by lia.
    rewrite (format_02d_two_digits (IdleScreen.tm_min c)) by lia.
    unfold sep. destruct (IdleScreen.blink s2); reflexivity.
Qed.

(** The burn-in shift and the blink after a redraw. *)
Lemma idle_draw_shift : forall c s,
  (0 <= IdleScreen.shift_x s < 4)%Z ->
  IdleScreen.shift_y s = IdleScreen.shift_x s ->
  (0 <= IdleScreen.shift_x (IdleScreen._draw textbbox_right c s) < 4)%Z /\
  IdleScreen.shift_y (IdleScreen._draw textbbox_right c s)
  = IdleScreen.shift_x (IdleScreen._draw textbbox_right c s).
Proof.
  intros c s Hx Hy. unfold IdleScreen._draw. cbv zeta.
  set (s1 := IdleScreen.send _ s).
  set (s2 := if Qgeb (IdleScreen.time_time c - IdleScreen.last_blink s1) 1
             then _ else s1).
  assert (H2 : IdleScreen.shift_x s2 = IdleScreen.shift_x s /\
               IdleScreen.shift_y s2 = IdleScreen.shift_y s)
    by (unfold s2; destruct (Qgeb _ 1); split; reflexivity).
  destruct H2 as [H2x H2y].
  destruct (Qgeb (IdleScreen.time_time c - IdleScreen.last_shift s2) 60); simpl.
  - rewrite H2x, H2y, Hy. split; [apply Z.mod_pos_bound; lia | reflexivity].
  - rewrite H2x, H2y. split; [exact Hx | exact Hy].
Qed.

(** X23. From its construction on and through any sequence of updates,
    the burn-in shift of the Idle screen stays within 0..3 and is the
    same in both directions. *)
Theorem idle_shift_stays_in_range :
  forall (contrast : Z) (c0 : IdleScreen.wall_clock)
         (cs : list IdleScreen.wall_clock),
    let s := IdleScreen.updates textbbox_right cs
               (IdleScreen.__init__ textbbox_right contrast c0) in
    (0 <= IdleScreen.shift_x s < 4)%Z /\
    IdleScreen.shift_y s = IdleScreen.shift_x s.
Proof.
  intros contrast c0 cs.
  assert (G : forall l s0,
             (0 <= IdleScreen.shift_x s0 < 4)%Z ->
             IdleScreen.shift_y s0 = IdleScreen.shift_x s0 ->
             (0 <= IdleScreen.shift_x (IdleScreen.updates textbbox_right l s0) < 4)%Z /\
             IdleScreen.shift_y (IdleScreen.updates textbbox_right l s0)
             = IdleScreen.shift_x (IdleScreen.updates textbbox_right l s0)).
  { induction l as [|c l IH]; intros s0 Hx Hy; simpl; [split; assumption|].
    unfold IdleScreen.update.
    destruct (idle_draw_shift c s0 Hx Hy) as [Hx' Hy']. now apply IH. }
  cbv zeta. unfold IdleScreen.__init__.
  match goal with |- context [IdleScreen._draw _ c0 ?s0] =>
    destruct (idle_draw_shift c0 s0 ltac:(simpl; lia) eq_refl) as [Hx Hy] end.
  now apply G.
Qed.

End IdleScreenFacts.

(* ================================================================== *)
(** * The volume read and the callbacks of a cycle *)
(* ================================================================== *)

(** X24. [get_volume_percent] always returns a percentage between 0 and
    100.  The volume [mpc] reports wins over the one of the HTTP API; the
    API is asked only when [mpc] gives nothing; 50 is returned when
    neither gives a volume; a reading outside 0..100 is brought to the
    nearer bound and one inside is returned as it is. *)
Theorem volume_is_clamped_with_fallback : forall v : volume_sources,
  (0 <= get_volume_percent v <= 100)%Z /\
  (forall n, mpc_volume v = Reading n ->
             get_volume_percent v = Z.max 0 (Z.min 100 n) /\
             ((0 <= n <= 100)%Z -> get_volume_percent v = n) /\
             ((n < 0)%Z -> get_volume_percent v = 0%Z) /\
             ((100 < n)%Z -> get_volume_percent v = 100%Z)) /\
  (forall n, mpc_volume v = NoReading -> api_volume v = Reading n ->
             get_volume_percent v = Z.max 0 (Z.min 100 n)) /\
  (mpc_volume v = NoReading -> api_volume v = NoReading ->
   get_volume_percent v = 50%Z).
Proof.
  intros [m a]. unfold get_volume_percent, clamp_percent. simpl.
  split; [|split; [|split]].
  - destruct m as [n|]; [lia|]. destruct a as [n|]; lia.
  - intros n ->. repeat split; lia.
  - intros n -> ->. reflexivity.
  - intros -> ->. reflexivity.
Qed.

Lemma poll_cycle_calls : forall meta h,
  NowPlayingExtractHandler.has_update_coro h = true ->
  let r := NowPlayingExtractHandler.poll_cycle meta h in
  NowPlayingExtractHandler.has_update_coro (fst r) = true /\
  (snd r = [NowPlayingExtractHandler.Update] \/
   exists t, snd r = [NowPlayingExtractHandler.Title t;
                      NowPlayingExtractHandler.Update]).
Proof.
  intros meta h Hu. unfold NowPlayingExtractHandler.poll_cycle,
    NowPlayingExtractHandler.on_metadata.
  destruct (truthy meta); [|simpl; rewrite Hu; auto].
  destruct (negb (eqb meta (NowPlayingExtractHandler._last_metadata h))); simpl;
    rewrite Hu; destruct (NowPlayingExtractHandler.has_coro h); simpl; eauto.
Qed.

Lemma _loop_from_calls : forall cs now next_t h r log,
  NowPlayingExtractHandler.has_update_coro h = true ->
  NowPlayingExtractHandler._loop_from cs now next_t h = Ok (r, log) ->
  Forall (fun entry => update_runs_last (snd entry)) log.
Proof.
  induction cs as [|c cs IH]; intros now next_t h r log Hu H.
  - simpl in H. inversion H; subst. constructor.
  - destruct (_loop_from_step _ _ _ _ _ _ _ H)
      as [[-> _] | [meta [waited [log' [_ [Hrec ->]]]]]]; [constructor|].
    cbv zeta in Hrec.
    destruct (poll_cycle_calls meta h Hu) as [Hu' Hc].
    constructor; [exact Hc|]. exact (IH _ _ _ _ _ Hu' Hrec).
Qed.

(** X25. In every cycle of the loop of a reader that has an update
    callback, that callback is awaited exactly once and last; the title
    callback is awaited at most once, before it. *)
Theorem update_callback_runs_once_a_cycle :
  forall (cs : list NowPlayingExtractHandler.cycle) (now : Q)
         (h r : NowPlayingExtractHandler.t)
         (log : list (Q * list NowPlayingExtractHandler.call)),
    NowPlayingExtractHandler.has_update_coro h = true ->
    NowPlayingExtractHandler._loop cs now h = Ok (r, log) ->
    Forall (fun entry => update_runs_last (snd entry)) log.
Proof.
  intros cs now h r log Hu H. unfold NowPlayingExtractHandler._loop in H.
  exact (_loop_from_calls _ _ _ _ _ _ Hu H).
Qed.

Lemma update_callback_runs_once_a_cycle_witness :
  exists r log,
    NowPlayingExtractHandler._loop [quick_cycle; slow_cycle; quick_cycle] 0 demo_reader
      = Ok (r, log) /\
    length log = 3%nat /\
    Forall (fun entry => update_runs_last (snd entry)) log.
Proof.
  destruct (NowPlayingExtractHandler._loop [quick_cycle; slow_cycle; quick_cycle]
              0 demo_reader) as [[r log]|e] eqn:E; [|discriminate E].
  exists r, log. split; [reflexivity|]. split.
  - vm_compute in E. injection E as _ <-. reflexivity.
  - exact (update_callback_runs_once_a_cycle
             [quick_cycle; slow_cycle; quick_cycle] 0 demo_reader r log eq_refl E).
Defined.
